(** * Dreamer: module collaboration service and enhanced provider wrappers

    A shallow embedding of
    - [services/moduleCollaborationService.ts] (the insight store, the
      cross-module rules, the ranked suggestion list, the coherence score),
      in its two variants: casting with visual, and sound with visual;
    - the enhanced provider service (the text-to-speech wrapper object, the
      error-message sanitizer and the three [...Enhanced] wrappers).

    JavaScript strings are sequences of code units; here a string is a
    [list ascii], each [ascii] standing for one code unit below 256.
    Numbers that the code only counts with are in [Z]. *)

From Stdlib Require Import String Ascii List ZArith Lia Bool Arith.
From Stdlib Require Import Permutation Sorted DecimalString.
From Stdlib Require QArith.
Import ListNotations.

Set Implicit Arguments.

(** ** JavaScript strings *)

Module Js.

Definition jsstring : Type := list ascii.

(** A string literal of the source. *)
Definition lit (s : string) : jsstring := list_ascii_of_string s.
Arguments lit s%_string.

Fixpoint eqb (a b : jsstring) : bool :=
  match a, b with
  | [], [] => true
  | x :: a', y :: b' => Ascii.eqb x y && eqb a' b'
  | _, _ => false
  end.

(** [s.startsWith(needle)] *)
Fixpoint startsWith (s needle : jsstring) {struct needle} : bool :=
  match needle with
  | [] => true
  | n :: needle' =>
      match s with
      | [] => false
      | c :: s' => Ascii.eqb c n && startsWith s' needle'
      end
  end.

(** [s.includes(needle)]: [needle] occurs in [s] as a contiguous run. *)
Fixpoint includes (s needle : jsstring) : bool :=
  startsWith s needle ||
  match s with
  | [] => false
  | _ :: s' => includes s' needle
  end.

Definition newline : ascii := "010"%char.

(** [s.split('\n')[0]]: the text before the first line feed. *)
Fixpoint first_line (s : jsstring) : jsstring :=
  match s with
  | [] => []
  | c :: s' => if Ascii.eqb c newline then [] else c :: first_line s'
  end.

(** [xs.join(sep)] *)
Fixpoint join (sep : jsstring) (xs : list jsstring) : jsstring :=
  match xs with
  | [] => []
  | [x] => x
  | x :: xs' => x ++ sep ++ join sep xs'
  end.

(** [String(n)] for a non-negative integer (an array length). *)
Definition of_nat (n : nat) : jsstring :=
  lit (NilZero.string_of_uint (Nat.to_uint n)).

(** Whether a lookup returned something ([undefined] and [null] are
    [None]). *)
Definition found {A} (o : option A) : bool :=
  match o with
  | Some _ => true
  | None => false
  end.

(** [s.substring(0, n)] *)
Definition substring0 (n : nat) (s : jsstring) : jsstring := firstn n s.

End Js.

Import Js.

(** ** moduleCollaborationService.ts *)

Module Collab.

Inductive Level : Type := high | medium | low.

Inductive SuggestionType : Type := sync | contrast | enhance | balance.

Definition Level_eqb (a b : Level) : bool :=
  match a, b with
  | high, high | medium, medium | low, low => true
  | _, _ => false
  end.

Section Service.

(** The type of the opaque [sharedData] payload. *)
Context {Shared : Type}.

(** The [module] field is typed ['casting' | 'visual'] in the source; the
    store itself is a [Map<string, ModuleInsight[]>], so the key is kept as
    the string it is at run time. *)
Record ModuleInsight : Type := {
  module : jsstring;
  insight : jsstring;
  relevance : Level;
  actionable : bool;
  sharedData : option Shared
}.

Record CrossModuleSuggestion : Type := {
  type : SuggestionType;
  modules : list jsstring;
  suggestion : jsstring;
  rationale : jsstring;
  priority : Level
}.

(** A JavaScript [Map] with string keys: keys in insertion order, setting
    an existing key keeps its position. *)
Definition JsMap (V : Type) : Type := list (jsstring * V).

Fixpoint map_get {V} (k : jsstring) (m : JsMap V) : option V :=
  match m with
  | [] => None
  | (k', v) :: m' => if Js.eqb k k' then Some v else map_get k m'
  end.

Fixpoint map_set {V} (k : jsstring) (v : V) (m : JsMap V) : JsMap V :=
  match m with
  | [] => [(k, v)]
  | (k', v') :: m' =>
      if Js.eqb k k' then (k', v) :: m' else (k', v') :: map_set k v m'
  end.

Definition map_values {V} (m : JsMap V) : list V := map snd m.

(** The two private fields of the singleton. *)
Record Service : Type := {
  insights : JsMap (list ModuleInsight);
  crossModuleSuggestions : list CrossModuleSuggestion
}.

(** [new ModuleCollaborationService()] *)
Definition new_service : Service :=
  {| insights := []; crossModuleSuggestions := [] |}.

(** [this.insights.get(module) || []] *)
Definition get_or_empty (k : jsstring) (m : JsMap (list ModuleInsight))
  : list ModuleInsight :=
  match map_get k m with
  | Some l => l
  | None => []
  end.

(** What a rule function returns when it fires. *)
Record Finding : Type := {
  f_suggestion : jsstring;
  f_rationale : jsstring;
  f_priority : Level
}.

Definition is_warm (i : ModuleInsight) : bool :=
  includes (insight i) (lit "warm") || includes (insight i) (lit "golden").

Definition is_serious (i : ModuleInsight) : bool :=
  includes (insight i) (lit "serious")
  || includes (insight i) (lit "professional").

Definition is_thematic (i : ModuleInsight) : bool :=
  includes (insight i) (lit "theme") || includes (insight i) (lit "emotion").

Definition findVisualCastingBalance
    (visualInsights castingInsights : list ModuleInsight) : option Finding :=
  let warmVisual := find is_warm visualInsights in
  let seriousCharacter := find is_serious castingInsights in
  match warmVisual, seriousCharacter with
  | Some _, Some _ =>
      Some {| f_suggestion :=
                lit "Balance serious character presence with warm visual color grading";
              f_rationale :=
                lit "Warm colors can soften serious characters and create emotional depth";
              f_priority := medium |}
  | _, _ => None
  end.

Definition findCastingVisualAlignment
    (visualInsights castingInsights : list ModuleInsight) : option Finding :=
  let themes :=
    filter is_thematic castingInsights ++ filter is_thematic visualInsights in
  if 2 <=? length themes then
    Some {| f_suggestion :=
              lit "Strengthen thematic coherence between visual storytelling and casting choices";
            f_rationale :=
              lit "Both modules highlight compatible emotional or thematic directions worth emphasizing";
            f_priority := high |}
  else None.

(** [{ type, modules: ['visual', 'casting'], ...finding }] *)
Definition spread (t : SuggestionType) (f : Finding) : CrossModuleSuggestion :=
  {| type := t;
     modules := [lit "visual"; lit "casting"];
     suggestion := f_suggestion f;
     rationale := f_rationale f;
     priority := f_priority f |}.

Definition push_if {A B} (o : option A) (f : A -> B) (l : list B) : list B :=
  match o with
  | Some a => l ++ [f a]
  | None => l
  end.

(** The suggestion list that one analysis pass builds from a store. *)
Definition analysis (store : JsMap (list ModuleInsight))
  : list CrossModuleSuggestion :=
  let castingInsights := get_or_empty (lit "casting") store in
  let visualInsights := get_or_empty (lit "visual") store in
  let s0 := [] in
  let s1 :=
    push_if (findVisualCastingBalance visualInsights castingInsights)
            (spread balance) s0 in
  let s2 :=
    push_if (findCastingVisualAlignment visualInsights castingInsights)
            (spread enhance) s1 in
  s2.

Definition analyzeCrossModuleSynergies (st : Service) : Service :=
  {| insights := insights st;
     crossModuleSuggestions := analysis (insights st) |}.

(** [relevance] defaults to ['medium'] when the caller leaves it out. *)
Definition addModuleInsight (module_ : jsstring) (insight_ : jsstring)
    (relevance_ : option Level) (sharedData_ : option Shared)
    (st : Service) : Service :=
  let relevance_ := match relevance_ with Some r => r | None => medium end in
  let newInsight :=
    {| module := module_; insight := insight_; relevance := relevance_;
       actionable := true; sharedData := sharedData_ |} in
  let moduleInsights := get_or_empty module_ (insights st) ++ [newInsight] in
  analyzeCrossModuleSynergies
    {| insights := map_set module_ moduleInsights (insights st);
       crossModuleSuggestions := crossModuleSuggestions st |}.

(** [priorityOrder] *)
Definition priorityOrder (p : Level) : Z :=
  match p with
  | high => 3
  | medium => 2
  | low => 1
  end%Z.

Definition by_priority (a b : CrossModuleSuggestion) : Z :=
  (priorityOrder (priority b) - priorityOrder (priority a))%Z.

Definition rank (s : CrossModuleSuggestion) : Z := priorityOrder (priority s).

(** [a] may stand directly before [b] in a list ranked by priority. *)
Definition ranked_before (a b : CrossModuleSuggestion) : Prop :=
  (rank b <= rank a)%Z.

Definition has_priority (p : Level) (s : CrossModuleSuggestion) : bool :=
  Level_eqb (priority s) p.

Definition has_relevance (r : Level) (i : ModuleInsight) : bool :=
  Level_eqb (relevance i) r.

(** [Array.prototype.sort(cmp)]: a stable sort; an element moves behind
    another only when the comparator is positive on the pair. *)
Fixpoint sort_insert {A} (cmp : A -> A -> Z) (x : A) (l : list A) : list A :=
  match l with
  | [] => [x]
  | y :: l' =>
      if (0 <? cmp x y)%Z then y :: sort_insert cmp x l' else x :: y :: l'
  end.

Fixpoint array_sort {A} (cmp : A -> A -> Z) (l : list A) : list A :=
  match l with
  | [] => []
  | x :: l' => sort_insert cmp x (array_sort cmp l')
  end.

(** The sort is in place: the stored array is reordered and returned. *)
Definition getCrossModuleSuggestions (st : Service)
  : list CrossModuleSuggestion * Service :=
  let sorted := array_sort by_priority (crossModuleSuggestions st) in
  (sorted, {| insights := insights st; crossModuleSuggestions := sorted |}).

Definition getModuleInsights (module_ : jsstring) (st : Service)
  : list ModuleInsight :=
  get_or_empty module_ (insights st).

(** [Array.from(this.insights.values()).flat()] *)
Definition getAllInsights (st : Service) : list ModuleInsight :=
  concat (map_values (insights st)).

Definition clearInsights (st : Service) : Service :=
  {| insights := []; crossModuleSuggestions := [] |}.

Definition generateCollaborationTips (module_ : jsstring) : list jsstring :=
  if Js.eqb module_ (lit "casting") then
    [ lit "Consider visual style when selecting actors that fit the aesthetic mood";
      lit "Share casting insights with visual designers to ensure character presentation feels cohesive";
      lit "Highlight emotional beats so visual teams can reinforce them through lighting and composition" ]
  else if Js.eqb module_ (lit "visual") then
    [ lit "Consider casting choices when developing visual character presentation";
      lit "Use color and lighting cues that reinforce the emotional tone suggested by casting";
      lit "Share visual motifs that could influence wardrobe and performance decisions" ]
  else [].

Record Coherence : Type := {
  score : Z;
  strengths : list jsstring;
  weaknesses : list jsstring;
  recommendations : list jsstring
}.

Definition count {A} (p : A -> bool) (l : list A) : Z :=
  Z.of_nat (length (filter p l)).

Definition analyzeProjectCoherence (st : Service) : Coherence * Service :=
  let allInsights := getAllInsights st in
  let '(suggestions, st') := getCrossModuleSuggestions st in
  let coherenceScore := 50%Z in
  let highRelevanceInsights :=
    count (has_relevance high) allInsights in
  let coherenceScore := (coherenceScore + highRelevanceInsights * 10)%Z in
  let highPrioritySuggestions :=
    count (has_priority high) suggestions in
  let lowPrioritySuggestions :=
    count (has_priority low) suggestions in
  let coherenceScore := (coherenceScore + highPrioritySuggestions * 5)%Z in
  let coherenceScore := (coherenceScore - lowPrioritySuggestions * 3)%Z in
  let coherenceScore := Z.max 0 (Z.min 100 coherenceScore) in
  let strengths_ :=
    [ lit "Multiple AI modules providing insights";
      lit "Cross-module collaboration active";
      lit "Diverse perspectives enhancing storytelling" ] in
  let w0 := [] in
  let w1 :=
    if length suggestions =? 0
    then w0 ++ [lit "Limited cross-module interaction detected"] else w0 in
  let w2 :=
    if (2 <? highPrioritySuggestions)%Z
    then w1 ++ [lit "Multiple high-priority improvements suggested"] else w1 in
  let recommendations_ := map suggestion (firstn 3 suggestions) in
  ({| score := coherenceScore; strengths := strengths_;
      weaknesses := w2; recommendations := recommendations_ |}, st').

(** The states the singleton can be in: it starts empty and changes only
    through its public methods (the read-only getters leave it as it is). *)
Inductive reachable : Service -> Prop :=
| reach_new : reachable new_service
| reach_add : forall st m i r d,
    reachable st -> reachable (addModuleInsight m i r d st)
| reach_get : forall st,
    reachable st -> reachable (snd (getCrossModuleSuggestions st))
| reach_clear : forall st,
    reachable st -> reachable (clearInsights st)
| reach_coherence : forall st,
    reachable st -> reachable (snd (analyzeProjectCoherence st)).

(** The insight [addModuleInsight] stores for its arguments. *)
Definition stored_insight (module_ insight_ : jsstring)
    (relevance_ : option Level) (sharedData_ : option Shared)
  : ModuleInsight :=
  {| module := module_; insight := insight_;
     relevance := match relevance_ with Some r => r | None => medium end;
     actionable := true; sharedData := sharedData_ |}.

Definition text_is_warm (t : jsstring) : bool :=
  includes t (lit "golden") || includes t (lit "warm").

Definition text_is_serious (t : jsstring) : bool :=
  includes t (lit "serious") || includes t (lit "professional").

Definition text_is_thematic (t : jsstring) : bool :=
  includes t (lit "theme") || includes t (lit "emotion").

(** A suggestion as the two rules build them: a medium [balance] or a high
    [enhance] one. *)
Definition rule_made (s : CrossModuleSuggestion) : Prop :=
  (type s = balance /\ priority s = medium)
  \/ (type s = enhance /\ priority s = high).

(** What holds of the suggestion list in every reachable state. *)
Definition suggestions_inv (st : Service) : Prop :=
  List.length (crossModuleSuggestions st) <= 2
  /\ Forall rule_made (crossModuleSuggestions st)
  /\ (getAllInsights st = [] -> crossModuleSuggestions st = []).

End Service.

Arguments ModuleInsight : clear implicits.
Arguments Service : clear implicits.

End Collab.

(** ** Regular expressions of the sanitizer

    The sanitizer's patterns are sequences of atoms; an atom is a
    character class under a greedy quantifier (a literal character is a
    one-character class taken once) or the assertion [\b]. Matching
    backtracks the way the language prescribes: a quantifier first takes
    one more character and continues, and falls back to stopping where it
    is only when that fails and its minimum is met. *)

Module Regex.

Inductive atom : Type :=
| Rep (p : ascii -> bool) (lo : nat) (hi : option nat)
| WordB.

Definition regex : Type := list atom.

Definition code (c : ascii) : N := N_of_ascii c.

Definition in_range (lo hi : N) (c : ascii) : bool :=
  ((lo <=? code c) && (code c <=? hi))%N.

Definition is_digit : ascii -> bool := in_range 48 57.
Definition is_upper : ascii -> bool := in_range 65 90.
Definition is_lower : ascii -> bool := in_range 97 122.

Definition is_char (a : ascii) (c : ascii) : bool := Ascii.eqb c a.

Definition one_of (cs : string) (c : ascii) : bool :=
  existsb (Ascii.eqb c) (list_ascii_of_string cs).
Arguments one_of cs%_string c.

(** [\w] *)
Definition is_word (c : ascii) : bool :=
  is_digit c || is_upper c || is_lower c || is_char "_" c.

(** [\s], on code units below 256: tab, line feed, vertical tab, form
    feed, carriage return, space and no-break space. *)
Definition is_space (c : ascii) : bool :=
  in_range 9 13 c || (code c =? 32)%N || (code c =? 160)%N.

Definition to_lower (c : ascii) : ascii :=
  if is_upper c then ascii_of_N (code c + 32) else c.

(** A literal character under the [i] flag. *)
Definition is_char_i (a : ascii) (c : ascii) : bool :=
  Ascii.eqb (to_lower c) (to_lower a).

Definition chr (a : ascii) : atom := Rep (is_char a) 1 (Some 1).
Definition chr_i (a : ascii) : atom := Rep (is_char_i a) 1 (Some 1).
Definition str (s : string) : regex := map chr (list_ascii_of_string s).
Definition str_i (s : string) : regex := map chr_i (list_ascii_of_string s).
Arguments str s%_string.
Arguments str_i s%_string.

Definition one (p : ascii -> bool) : atom := Rep p 1 (Some 1).
Definition opt (p : ascii -> bool) : atom := Rep p 0 (Some 1).
Definition star (p : ascii -> bool) : atom := Rep p 0 None.
Definition plus (p : ascii -> bool) : atom := Rep p 1 None.
Definition times (n : nat) (p : ascii -> bool) : atom := Rep p n (Some n).
Definition at_least (n : nat) (p : ascii -> bool) : atom := Rep p n None.

Definition word_before (prev : option ascii) : bool :=
  match prev with
  | Some c => is_word c
  | None => false
  end.

Definition word_ahead (s : jsstring) : bool :=
  match s with
  | c :: _ => is_word c
  | [] => false
  end.

(** [\b] holds between a word character and a non-word character (or an
    end of the input). *)
Definition is_boundary (prev : option ascii) (s : jsstring) : bool :=
  xorb (word_before prev) (word_ahead s).

(** A matcher continuation: characters consumed so far, the character just
    before the position, the rest of the input; it answers with the length
    of the whole match. *)
Definition cont : Type := nat -> option ascii -> jsstring -> option nat.

Fixpoint rep_greedy (k : cont) (p : ascii -> bool) (lo : nat)
    (hi : option nat) (acc : nat) (prev : option ascii) (s : jsstring)
    {struct s} : option nat :=
  let stop := if lo =? 0 then k acc prev s else None in
  match hi with
  | Some 0 => stop
  | _ =>
      match s with
      | c :: s' =>
          if p c then
            match rep_greedy k p (pred lo) (option_map pred hi)
                             (S acc) (Some c) s' with
            | Some r => Some r
            | None => stop
            end
          else stop
      | [] => stop
      end
  end.

Fixpoint match_atoms (re : regex) : cont :=
  match re with
  | [] => fun acc _ _ => Some acc
  | WordB :: re' =>
      fun acc prev s =>
        if is_boundary prev s then match_atoms re' acc prev s else None
  | Rep p lo hi :: re' => rep_greedy (match_atoms re') p lo hi
  end.

(** The length of the match of [re] that starts at this position, if any. *)
Definition exec (re : regex) (prev : option ascii) (s : jsstring)
  : option nat :=
  match_atoms re 0 prev s.

(** [s.replace(/re/g, rep)] for a replacement text without [$]: the input is
    scanned from the left; [skip] counts the characters of the current
    match still to be passed over; an empty match puts the replacement in
    front of the character it stands before. *)
Fixpoint replace_from (m : option ascii -> jsstring -> option nat)
    (rep : jsstring) (skip : nat) (prev : option ascii) (s : jsstring)
    {struct s} : jsstring :=
  match skip with
  | S k =>
      match s with
      | [] => []
      | c :: s' => replace_from m rep k (Some c) s'
      end
  | 0 =>
      match m prev s with
      | Some (S n) =>
          rep ++ match s with
                 | [] => []
                 | c :: s' => replace_from m rep n (Some c) s'
                 end
      | Some 0 =>
          rep ++ match s with
                 | [] => []
                 | c :: s' => c :: replace_from m rep 0 (Some c) s'
                 end
      | None =>
          match s with
          | [] => []
          | c :: s' => c :: replace_from m rep 0 (Some c) s'
          end
      end
  end.

Definition replace_all (re : regex) (rep : jsstring) (s : jsstring)
  : jsstring :=
  replace_from (exec re) rep 0 None s.

(** The characters a pattern can consume at all. *)
Definition accepts (re : regex) (c : ascii) : bool :=
  existsb (fun a => match a with
                    | Rep p _ _ => p c
                    | WordB => false
                    end) re.

(** The character a text starts with passes the test [p]. *)
Definition starts_in (p : ascii -> bool) (s : jsstring) : bool :=
  match s with
  | c :: _ => p c
  | [] => false
  end.

Definition one_line (s : jsstring) : bool :=
  forallb (fun c => negb (Ascii.eqb c newline)) s.

(** What a number [n] of characters must satisfy to be tried by a
    quantifier with bound [hi] on the input [s]. *)
Definition admissible (p : ascii -> bool) (hi : option nat) (s : jsstring)
    (n : nat) : Prop :=
  match hi with Some h => n <= h | None => True end
  /\ n <= List.length s /\ forallb p (firstn n s) = true.

(** The position [n] characters further on: the character before it and
    the rest of the input. *)
Fixpoint advance (n : nat) (prev : option ascii) (s : jsstring)
  : option ascii * jsstring :=
  match n, s with
  | S n', c :: s' => advance n' (Some c) s'
  | _, _ => (prev, s)
  end.

End Regex.

(** ** The enhanced provider service *)

Module Enhanced.

Import Regex.

(** *** TextToSpeechService *)

Record Voice : Type := { voice_name : jsstring; voice_lang : jsstring }.

(** The host's speech synthesis object, as far as the service reads it. *)
Record SpeechSynthesis : Type := { getVoices : list Voice }.

Record Window : Type := { speechSynthesis : option SpeechSynthesis }.

(** The host environment: [window] is undefined outside a browser. *)
Record Host : Type := { window : option Window }.

Record TextToSpeechService : Type := {
  synth : option SpeechSynthesis;
  voices : list Voice;
  listening : bool
}.

Definition loadVoices (t : TextToSpeechService) : TextToSpeechService :=
  match synth t with
  | None => t
  | Some sy =>
      let vs := getVoices sy in
      {| synth := synth t; voices := vs;
         listening := (List.length vs =? 0) || listening t |}
  end.

(** [new TextToSpeechService()] *)
Definition new_TextToSpeechService (h : Host) : TextToSpeechService :=
  let t := {| synth := None; voices := []; listening := false |} in
  match window h with
  | Some w =>
      match speechSynthesis w with
      | Some sy =>
          loadVoices {| synth := Some sy; voices := voices t;
                        listening := listening t |}
      | None => t
      end
  | None => t
  end.

(** The [voiceschanged] listener, when it was registered. *)
Definition on_voiceschanged (now : list Voice) (t : TextToSpeechService)
  : TextToSpeechService :=
  if listening t
  then {| synth := synth t; voices := now; listening := true |}
  else t.

(** The speech synthesis capability of the host, if it has one. *)
Definition host_speech (h : Host) : option SpeechSynthesis :=
  match window h with
  | Some w => speechSynthesis w
  | None => None
  end.

Definition getAvailableVoices (t : TextToSpeechService) : list Voice :=
  voices t.

(** The module-level constant [ttsService]: a reference that could in
    principle be [null] ([None]) and is bound to a fresh object. *)
Definition ttsService (h : Host) : option TextToSpeechService :=
  Some (new_TextToSpeechService h).

Record ServiceStats : Type := {
  ttsAvailable : bool;
  availableVoices : nat;
  timestamp : jsstring
}.

(** [now] is [new Date().toISOString()] at the time of the call. *)
Definition getEnhancedServiceStats (svc : option TextToSpeechService)
    (now : jsstring) : ServiceStats :=
  {| ttsAvailable := match svc with Some _ => true | None => false end;
     availableVoices :=
       match svc with
       | Some t => List.length (getAvailableVoices t)
       | None => 0
       end;
     timestamp := now |}.

(** *** sanitizeErrorMessage *)

(** [[0-9A-Za-z\-_]] *)
Definition token_char (c : ascii) : bool :=
  is_digit c || is_upper c || is_lower c || is_char "-" c || is_char "_" c.

(** [[0-9A-Za-z\-_.]] *)
Definition bearer_char (c : ascii) : bool :=
  token_char c || is_char "." c.

(** [[A-Z_]] *)
Definition env_char (c : ascii) : bool :=
  is_upper c || is_char "_" c.

(** The class of the double and the single quote character, written
    [quote] in the patterns quoted below. *)
Definition quote : ascii -> bool := fun c => is_char "034" c || is_char "'" c.

(** [/AIza[0-9A-Za-z\-_]{35}/g] *)
Definition re_google_key : regex :=
  str "AIza" ++ [times 35 token_char].

(** [/api[_-]?key[quote]?\s*[:=]\s*[quote]?([0-9A-Za-z\-_]{32,})/gi] *)
Definition re_api_key : regex :=
  str_i "api" ++ [opt (one_of "_-")] ++ str_i "key"
  ++ [opt quote; star is_space; one (one_of ":="); star is_space; opt quote;
      at_least 32 token_char].

(** [/authorization[quote]?\s*[:=]\s*[quote]?Bearer\s+[0-9A-Za-z\-_.]+/gi] *)
Definition re_bearer : regex :=
  str_i "authorization"
  ++ [opt quote; star is_space; one (one_of ":="); star is_space; opt quote]
  ++ str_i "Bearer" ++ [plus is_space; plus bearer_char].

(** [/\b[0-9A-Za-z\-_]{40,}\b/g] *)
Definition re_long_token : regex :=
  [WordB; at_least 40 token_char; WordB].

(** [/process\.env\.[A-Z_]+/g] *)
Definition re_env_var : regex :=
  str "process" ++ [chr "."] ++ str "env" ++ [chr "."; plus env_char].

Definition API_KEY : jsstring := lit "[API_KEY]".
Definition api_key_REDACTED : jsstring := lit "api_key: [REDACTED]".
Definition Bearer_REDACTED : jsstring := lit "Authorization: Bearer [REDACTED]".
Definition REDACTED_TOKEN : jsstring := lit "[REDACTED_TOKEN]".
Definition ENV_VAR : jsstring := lit "[ENV_VAR]".

(** A thrown value: an [Error] with its message and optional stack, or any
    other value, given by what [String(error)] makes of it. *)
Inductive thrown : Type :=
| ErrorObject (message : jsstring) (stack : option jsstring)
| OtherValue (as_string : jsstring).

Definition errorStr (error : thrown) : jsstring :=
  match error with
  | ErrorObject message _ => message
  | OtherValue s => s
  end.

(** [error instanceof Error ? error.stack || '' : ''] *)
Definition errorStack (error : thrown) : jsstring :=
  match error with
  | ErrorObject _ (Some stack) => stack
  | ErrorObject _ None => []
  | OtherValue _ => []
  end.

Definition fullErrorText (error : thrown) : jsstring :=
  errorStr error ++ [newline] ++ errorStack error.

Definition redact (text : jsstring) : jsstring :=
  replace_all re_env_var ENV_VAR
    (replace_all re_long_token REDACTED_TOKEN
       (replace_all re_bearer Bearer_REDACTED
          (replace_all re_api_key api_key_REDACTED
             (replace_all re_google_key API_KEY text)))).

Definition sanitizeErrorMessage (error : thrown) : jsstring :=
  first_line (redact (fullErrorText error)).

(** The text carries one of the markers the sanitizer puts in place of a
    key or a token. *)
Definition has_marker (text : jsstring) : bool :=
  includes text API_KEY || includes text (lit "[REDACTED]")
  || includes text REDACTED_TOKEN.

(** A stretch of text that begins and ends with a word character. *)
Definition word_bounded (t : jsstring) : bool :=
  word_ahead t && word_ahead (rev t).

(** A token stretch: token characters only, a word character at both
    ends. The text has no token stretch of [limit] characters or more;
    [k] counts the characters since the first word character of the run
    of token characters the text continues (0 when there was none). *)
Fixpoint no_token_span (limit k : nat) (s : jsstring) : bool :=
  match s with
  | [] => true
  | c :: s' =>
      if is_word c then (S k <? limit) && no_token_span limit (S k) s'
      else if token_char c
           then no_token_span limit (match k with 0 => 0 | _ => S k end) s'
           else no_token_span limit 0 s'
  end.

(** How far a token stretch can reach into the input: the length of the
    run of token characters the input starts with, up to its last word
    character. *)
Fixpoint span_len (s : jsstring) : nat :=
  match s with
  | c :: s' =>
      if token_char c then
        if is_word c then S (span_len s')
        else match span_len s' with 0 => 0 | S n => S (S n) end
      else 0
  | [] => 0
  end.

(** *** The enhanced wrappers

    An awaited provider call either yields its value or throws. A wrapper
    returns what it wrote to the console together with its own outcome. *)

Inductive outcome (A : Type) : Type :=
| Fulfilled (a : A)
| Rejected (error : thrown).
Arguments Fulfilled {A} a.
Arguments Rejected {A} error.

(** One [console.error(label, text)] call. *)
Definition console_entry : Type := (jsstring * jsstring)%type.

(** [AudioMoodTag] is a union of string literals; a tag is its string. *)
Definition AudioMoodTag : Type := jsstring.

Definition dquote : jsstring := ["034"%char].

Record MoodResult : Type := {
  moods : list AudioMoodTag;
  reasoning : jsstring
}.

Section Wrappers.

(** The suggestion types of [../types], never inspected here. *)
Variables AudioSuggestion FoleySuggestion : Type.

(** The provider functions of [./geminiService]. *)
Variable geminiAnalyzeSoundMood :
  jsstring -> jsstring -> outcome (list AudioMoodTag).
Variable geminiGenerateSoundSuggestions :
  jsstring -> list AudioMoodTag -> jsstring -> jsstring ->
  outcome (list AudioSuggestion).
Variable geminiGenerateFoleySuggestions :
  list jsstring -> jsstring -> jsstring -> outcome (list FoleySuggestion).

Record SoundResult : Type := {
  sound_suggestions : list AudioSuggestion;
  description : jsstring
}.

Record FoleyResult : Type := {
  foley_suggestions : list FoleySuggestion;
  foley_insights : jsstring
}.

Definition analyzeSoundMoodEnhanced (sceneDescription visualMood : jsstring)
  : list console_entry * outcome MoodResult :=
  match geminiAnalyzeSoundMood sceneDescription visualMood with
  | Fulfilled moods_ =>
      let reasoning_ :=
        lit "Based on the scene description " ++ dquote
        ++ substring0 50 sceneDescription ++ lit "..." ++ dquote
        ++ lit " and visual mood " ++ dquote ++ visualMood ++ dquote
        ++ lit ", the AI has identified " ++ of_nat (List.length moods_)
        ++ lit " primary audio moods: " ++ join (lit ", ") moods_
        ++ lit ". This selection creates an immersive soundscape that enhances the emotional impact of the scene." in
      ([], Fulfilled {| moods := moods_; reasoning := reasoning_ |})
  | Rejected error =>
      ([(lit "Enhanced sound mood analysis failed:",
         sanitizeErrorMessage error)],
       Fulfilled
         {| moods := [lit "ambient"];
            reasoning :=
              lit "Using default ambient mood due to analysis error." |})
  end.

Definition generateSoundSuggestionsEnhanced (sceneDescription : jsstring)
    (mood : list AudioMoodTag) (cameraMovement lighting : jsstring)
  : list console_entry * outcome SoundResult :=
  match geminiGenerateSoundSuggestions
          sceneDescription mood cameraMovement lighting with
  | Fulfilled suggestions =>
      let description_ :=
        lit "Generated " ++ of_nat (List.length suggestions)
        ++ lit " professional sound suggestions optimized for "
        ++ join (lit "/") mood ++ lit " mood with " ++ cameraMovement
        ++ lit " camera movement and " ++ lighting
        ++ lit " lighting. Each suggestion is carefully crafted to enhance the cinematic experience." in
      ([], Fulfilled {| sound_suggestions := suggestions;
                        description := description_ |})
  | Rejected error =>
      ([(lit "Enhanced sound suggestions failed:",
         sanitizeErrorMessage error)],
       Fulfilled
         {| sound_suggestions := [];
            description := lit "Sound generation encountered an error." |})
  end.

Definition generateFoleySuggestionsEnhanced (characters : list jsstring)
    (sceneDescription cameraMovement : jsstring)
  : list console_entry * outcome FoleyResult :=
  match geminiGenerateFoleySuggestions
          characters sceneDescription cameraMovement with
  | Fulfilled suggestions =>
      let insights_ :=
        lit "Generated " ++ of_nat (List.length suggestions)
        ++ lit " foley suggestions for " ++ of_nat (List.length characters)
        ++ lit " character(s). These sound effects add realistic layers to character movements and interactions, creating a more immersive audio experience." in
      ([], Fulfilled {| foley_suggestions := suggestions;
                        foley_insights := insights_ |})
  | Rejected error =>
      ([(lit "Enhanced foley suggestions failed:",
         sanitizeErrorMessage error)],
       Fulfilled
         {| foley_suggestions := [];
            foley_insights := lit "Foley generation encountered an error." |})
  end.

End Wrappers.

End Enhanced.

(** ** Sample inputs *)

Module Samples.

Import Collab.

(** The texts of the balance scenario. *)
Definition warm_text : jsstring := lit "the lighting feels golden and warm".
Definition serious_text : jsstring :=
  lit "character is serious and professional".

(** A service after two insights, and after the same two the other way
    round. *)
Definition two_insights : Service unit :=
  addModuleInsight (lit "casting") (lit "a serious theme") (Some high) None
    (addModuleInsight (lit "visual") (lit "warm emotion") None None
       new_service).

Definition two_insights_swapped : Service unit :=
  addModuleInsight (lit "visual") (lit "warm emotion") None None
    (addModuleInsight (lit "casting") (lit "a serious theme") (Some high) None
       new_service).

Import Enhanced.

(** A provider failure that carries a key in its message. *)
Definition quota_error : thrown :=
  ErrorObject
    (lit "quota exceeded for key abcdefghijABCDEFGHIJ0123456789abcdefghij_XYZ9")
    (Some (lit "Error: quota exceeded" ++ [newline] ++ lit "    at call")).

(** A 45-character token of letters, digits and underscore. *)
Definition word_token : jsstring :=
  lit "abcdefghijABCDEFGHIJ0123456789abcdefghij_XYZ9".

(** A 45-character token of the sanitizer's token alphabet that has
    hyphens at both ends. *)
Definition hyphen_token : jsstring :=
  lit "---abcdefghijklmnopqrstuvwxyz0123456789ABC---".

(** A host without a window, and so without speech synthesis. *)
Definition headless : Host := {| window := None |}.

End Samples.

Import Samples.

(** ** The sound and visual collaboration service

    The second service of the repository has the same class body as the
    casting one, with the modules sound and visual, its own two rules and
    its own tips. Its records, its store and the methods that are the
    same text for text ([getCrossModuleSuggestions], [getModuleInsights],
    [getAllInsights], [clearInsights], [analyzeProjectCoherence]) are the
    ones defined above. *)

Module SoundCollab.

Import Collab.

Section Service.

Context {Shared : Type}.

Definition is_sound_mood (i : ModuleInsight Shared) : bool :=
  includes (insight i) (lit "mood") || includes (insight i) (lit "atmosphere").

Definition is_visual_mood (i : ModuleInsight Shared) : bool :=
  includes (insight i) (lit "lighting") || includes (insight i) (lit "color").

Definition is_sound_energy (i : ModuleInsight Shared) : bool :=
  includes (insight i) (lit "energy") || includes (insight i) (lit "intensity").

Definition is_visual_energy (i : ModuleInsight Shared) : bool :=
  includes (insight i) (lit "movement") || includes (insight i) (lit "camera").

Definition mood_sync : Finding :=
  {| f_suggestion :=
       lit "Align sound atmosphere with visual mood for cohesive storytelling";
     f_rationale :=
       lit "Both sound and visual elements suggest similar atmospheric qualities";
     f_priority := high |}.

Definition energy_sync : Finding :=
  {| f_suggestion :=
       lit "Synchronize audio intensity with visual camera movement";
     f_rationale :=
       lit "Both elements indicate matching energy levels for dynamic sequences";
     f_priority := high |}.

Definition findSoundVisualSync
    (soundInsights visualInsights : list (ModuleInsight Shared))
  : option Finding :=
  let soundMood := find is_sound_mood soundInsights in
  let visualMood := find is_visual_mood visualInsights in
  if found soundMood && found visualMood then Some mood_sync
  else
    let soundEnergy := find is_sound_energy soundInsights in
    let visualEnergy := find is_visual_energy visualInsights in
    if found soundEnergy && found visualEnergy then Some energy_sync
    else None.

Definition findSoundVisualEnhancement
    (soundInsights visualInsights : list (ModuleInsight Shared))
  : option Finding :=
  let themes :=
    filter is_thematic soundInsights ++ filter is_thematic visualInsights in
  if 2 <=? List.length themes then
    Some {| f_suggestion :=
              lit "Strengthen thematic coherence between audio and visual storytelling";
            f_rationale :=
              lit "Both sound and visual modules highlight similar thematic or emotional cues";
            f_priority := high |}
  else None.

(** [{ type, modules: ['sound', 'visual'], ...finding }] *)
Definition spread (t : SuggestionType) (f : Finding) : CrossModuleSuggestion :=
  {| type := t;
     modules := [lit "sound"; lit "visual"];
     suggestion := f_suggestion f;
     rationale := f_rationale f;
     priority := f_priority f |}.

(** The suggestion list that one analysis pass builds from a store. *)
Definition analysis (store : JsMap (list (ModuleInsight Shared)))
  : list CrossModuleSuggestion :=
  let soundInsights := get_or_empty (lit "sound") store in
  let visualInsights := get_or_empty (lit "visual") store in
  let s0 := [] in
  let s1 :=
    push_if (findSoundVisualSync soundInsights visualInsights)
            (spread sync) s0 in
  let s2 :=
    push_if (findSoundVisualEnhancement soundInsights visualInsights)
            (spread enhance) s1 in
  s2.

Definition analyzeCrossModuleSynergies (st : Service Shared)
  : Service Shared :=
  {| insights := insights st;
     crossModuleSuggestions := analysis (insights st) |}.

Definition addModuleInsight (module_ : jsstring) (insight_ : jsstring)
    (relevance_ : option Level) (sharedData_ : option Shared)
    (st : Service Shared) : Service Shared :=
  let relevance_ := match relevance_ with Some r => r | None => medium end in
  let newInsight :=
    {| module := module_; insight := insight_; relevance := relevance_;
       actionable := true; sharedData := sharedData_ |} in
  let moduleInsights := get_or_empty module_ (insights st) ++ [newInsight] in
  analyzeCrossModuleSynergies
    {| insights := map_set module_ moduleInsights (insights st);
       crossModuleSuggestions := crossModuleSuggestions st |}.

Definition generateCollaborationTips (module_ : jsstring) : list jsstring :=
  if Js.eqb module_ (lit "sound") then
    [ lit "Consider how your sound design will complement or contrast with visual lighting choices";
      lit "Match character emotional states through both sound design and visual pacing";
      lit "Use sound cues to enhance the visual focus and camera movement" ]
  else if Js.eqb module_ (lit "visual") then
    [ lit "Coordinate visual mood with sound design for cohesive storytelling";
      lit "Plan camera movement with accompanying audio intensity in mind";
      lit "Use visual elements to support the narrative suggested by sound design motifs" ]
  else [].

(** The states of the sound service: it starts empty and changes only
    through its public methods. *)
Inductive reachable : Service Shared -> Prop :=
| reach_new : reachable new_service
| reach_add : forall st m i r d,
    reachable st -> reachable (addModuleInsight m i r d st)
| reach_get : forall st,
    reachable st -> reachable (snd (getCrossModuleSuggestions st))
| reach_clear : forall st,
    reachable st -> reachable (clearInsights st)
| reach_coherence : forall st,
    reachable st -> reachable (snd (analyzeProjectCoherence st)).

(** The sample scenario: a sound insight, then a visual insight. *)
Definition sound_visual_scenario (r1 r2 : option Level)
    (d1 d2 : option Shared) (st : Service Shared) : Service Shared :=
  addModuleInsight (lit "visual") (lit "dramatic lighting and color palette")
    r2 d2
    (addModuleInsight (lit "sound") (lit "mood: tense atmosphere") r1 d1 st).

Definition text_is_sound_mood (t : jsstring) : bool :=
  includes t (lit "mood") || includes t (lit "atmosphere").

Definition text_is_visual_mood (t : jsstring) : bool :=
  includes t (lit "lighting") || includes t (lit "color").

End Service.

End SoundCollab.

(** ** Sample states of the sound and visual service *)

Module SoundSamples.

Import Collab.

(** A service after two sound insights and a visual one, and after the
    same three with the two sound insights the other way round. *)
Definition three_insights : Service unit :=
  SoundCollab.addModuleInsight (lit "visual")
    (lit "dramatic lighting and color palette") None None
    (SoundCollab.addModuleInsight (lit "sound") (lit "a theme of loss")
       (Some high) None
       (SoundCollab.addModuleInsight (lit "sound")
          (lit "mood: tense atmosphere, raw emotion") None None
          new_service)).

Definition three_insights_swapped : Service unit :=
  SoundCollab.addModuleInsight (lit "visual")
    (lit "dramatic lighting and color palette") None None
    (SoundCollab.addModuleInsight (lit "sound")
       (lit "mood: tense atmosphere, raw emotion") None None
       (SoundCollab.addModuleInsight (lit "sound") (lit "a theme of loss")
          (Some high) None
          new_service)).

End SoundSamples.

(** ** Speaking, previews and prompts of the enhanced service *)

Module Speech.

Import Regex Enhanced.

Section Speak.

(** JavaScript numbers are only handed on by this code, never computed
    with: a number is a value of some type, [falsy] tells the numbers that
    count as false (0 and NaN), and the two literals of the source are
    given. *)
Variable number : Type.
Variable falsy : number -> bool.
Variable one : number.
Variable one_point_one : number.

(** The [options] argument of [speak]; a field left out is [None]. *)
Record SpeakOptions : Type := {
  opt_voice : option jsstring;
  opt_rate : option number;
  opt_pitch : option number
}.

(** A [SpeechSynthesisUtterance] as [speak] fills it in; its voice stays
    unset unless a voice was found. *)
Record Utterance : Type := {
  u_text : jsstring;
  u_voice : option Voice;
  u_rate : number;
  u_pitch : number
}.

(** What [speak] and [stop] do to the host. *)
Inductive HostCall : Type :=
| ConsoleWarn (message : jsstring)
| SynthCancel
| SynthSpeak (u : Utterance).

(** [x || 1.0] for an optional number. *)
Definition or_one (x : option number) : number :=
  match x with
  | Some n => if falsy n then one else n
  | None => one
  end.

Definition named (name : jsstring) (v : Voice) : bool :=
  includes (voice_name v) name.

Definition preferred (v : Voice) : bool :=
  includes (voice_name v) (lit "Natural")
  || includes (voice_name v) (lit "Premium")
  || startsWith (voice_lang v) (lit "en-").

(** [if (options.voice)]: a name that is given and not empty. *)
Definition requested (o : SpeakOptions) : option jsstring :=
  match opt_voice o with
  | Some (c :: name) => Some (c :: name)
  | _ => None
  end.

Definition speak (t : TextToSpeechService) (text : jsstring)
    (options : SpeakOptions) : list HostCall :=
  match synth t with
  | None =>
      [ConsoleWarn (lit "Text-to-Speech not supported in this environment")]
  | Some _ =>
      let voice :=
        match requested options with
        | Some name => find (named name) (voices t)
        | None => find preferred (voices t)
        end in
      let utterance :=
        {| u_text := text; u_voice := voice;
           u_rate := or_one (opt_rate options);
           u_pitch := or_one (opt_pitch options) |} in
      [SynthCancel; SynthSpeak utterance]
  end.

Definition stop (t : TextToSpeechService) : list HostCall :=
  match synth t with
  | Some _ => [SynthCancel]
  | None => []
  end.

(** [previewAudioSuggestion], on the service object [ttsService]. *)
Definition previewAudioSuggestion (t : TextToSpeechService)
    (description : jsstring) : list HostCall :=
  let previewText := lit "Audio suggestion: " ++ description in
  speak t previewText
    {| opt_voice := None; opt_rate := Some one_point_one;
       opt_pitch := None |}.

Definition stopAudioPreview (t : TextToSpeechService) : list HostCall :=
  stop t.

End Speak.




(** The service after a run of [voiceschanged] events, each with the
    voice list the host has at that time. *)
Definition after_events (events : list (list Voice))
    (t : TextToSpeechService) : TextToSpeechService :=
  fold_left (fun t' now => on_voiceschanged now t') events t.

(** The environment reference the sanitizer looks for:
    [process.env.] and one character of the name. *)
Definition env_reference (c : ascii) : jsstring :=
  lit "process.env." ++ [c].

End Speech.

(** ** Sample hosts and numbers *)

Module SpeechSamples.

Import Enhanced Speech.

(** Numbers as rationals, for the sample runs: 0 is the falsy one. *)
Definition num : Type := QArith_base.Q.
Definition num_falsy (q : num) : bool :=
  QArith_base.Qeq_bool q (QArith_base.Qmake 0 1).
Definition num_one : num := QArith_base.Qmake 1 1.
Definition num_one_point_one : num := QArith_base.Qmake 11 10.

Definition voice_anna : Voice :=
  {| voice_name := lit "Anna"; voice_lang := lit "de-DE" |}.
Definition voice_premium : Voice :=
  {| voice_name := lit "Samantha Premium"; voice_lang := lit "en-US" |}.

(** A browser whose synthesizer lists two voices. *)
Definition two_voices : SpeechSynthesis :=
  {| getVoices := [voice_anna; voice_premium] |}.
Definition browser : Host :=
  {| window := Some {| speechSynthesis := Some two_voices |} |}.

(** A browser whose synthesizer has not loaded its voices yet. *)
Definition slow_browser : Host :=
  {| window := Some {| speechSynthesis := Some {| getVoices := [] |} |} |}.

End SpeechSamples.

(** ** Texts the sanitizer has nothing to do on *)

Module Plain.

Import Regex Enhanced.

(** No run of [limit] or more token characters; [k] is the length of the
    run the text continues. *)
Fixpoint no_token_run (limit k : nat) (s : jsstring) : bool :=
  match s with
  | [] => true
  | c :: s' =>
      if token_char c
      then (S k <? limit) && no_token_run limit (S k) s'
      else no_token_run limit 0 s'
  end.

(** The text with its capital letters A to Z in lower case. *)
Definition lower (s : jsstring) : jsstring := map to_lower s.

(** A text without a run of 32 token characters, without the text
    [process.env.] and without the word authorization in any letter
    case. *)
Definition plain (text : jsstring) : bool :=
  no_token_run 32 0 text
  && negb (includes text (lit "process.env."))
  && negb (includes (lower text) (lit "authorization")).

(** What makes a text plain, as it is handed down the text. *)
Definition plain_from (s : jsstring) : Prop :=
  (exists k, no_token_run 32 k s = true)
  /\ includes s (lit "process.env.") = false
  /\ includes (lower s) (lit "authorization") = false.

(** A text that can go to the console: one line, no token stretch of 40
    characters or more, no reference to an environment variable. *)
Definition safe_to_log (text : jsstring) : Prop :=
  ~ In newline text
  /\ (forall core,
        40 <= List.length core -> forallb token_char core = true ->
        word_bounded core = true -> includes text core = false)
  /\ (forall c, env_char c = true ->
                includes text (lit "process.env." ++ [c]) = false).

End Plain.

(** * Properties of the collaboration service *)

Import Collab.

Lemma js_eqb_refl (a : jsstring) : Js.eqb a a = true.
Proof.
  induction a as [|c a IH]; simpl; [reflexivity|].
  now rewrite Ascii.eqb_refl, IH.
Qed.

Lemma js_eqb_eq (a b : jsstring) : Js.eqb a b = true <-> a = b.
Proof.
  split; [|intros ->; apply js_eqb_refl].
  revert b; induction a as [|c a IH]; intros [|d b]; simpl; try discriminate;
    [reflexivity|].
  intros H. apply andb_true_iff in H as [Hc Ha].
  apply Ascii.eqb_eq in Hc. apply IH in Ha. now subst.
Qed.

Lemma js_eqb_sym (a b : jsstring) : Js.eqb a b = Js.eqb b a.
Proof.
  destruct (Js.eqb a b) eqn:E.
  - apply js_eqb_eq in E; subst. now rewrite js_eqb_refl.
  - destruct (Js.eqb b a) eqn:E'; [|reflexivity].
    apply js_eqb_eq in E'; subst. now rewrite js_eqb_refl in E.
Qed.

Section SortFacts.

Lemma Level_eqb_eq (a b : Level) : Level_eqb a b = true <-> a = b.
Proof. destruct a, b; simpl; split; congruence. Qed.

Lemma sort_insert_perm {A} (cmp : A -> A -> Z) (x : A) (l : list A) :
  Permutation (sort_insert cmp x l) (x :: l).
Proof.
  induction l as [|y l IH]; simpl; [reflexivity|].
  destruct (0 <? cmp x y)%Z; [|reflexivity].
  rewrite IH. apply perm_swap.
Qed.

Lemma array_sort_perm {A} (cmp : A -> A -> Z) (l : list A) :
  Permutation (array_sort cmp l) l.
Proof.
  induction l as [|x l IH]; simpl; [reflexivity|].
  rewrite sort_insert_perm. now constructor.
Qed.

Lemma sort_insert_hd (x a : CrossModuleSuggestion) (l : list CrossModuleSuggestion) :
  ranked_before a x -> HdRel ranked_before a l ->
  HdRel ranked_before a (sort_insert by_priority x l).
Proof.
  intros Hax Hal. destruct l as [|y l]; simpl; [now constructor|].
  destruct (0 <? by_priority x y)%Z; constructor; [|assumption].
  now inversion Hal.
Qed.

Lemma sort_insert_sorted (x : CrossModuleSuggestion) (l : list CrossModuleSuggestion) :
  Sorted ranked_before l -> Sorted ranked_before (sort_insert by_priority x l).
Proof.
  induction 1 as [|y l Hl IH Hhd]; simpl.
  - repeat constructor.
  - destruct (0 <? by_priority x y)%Z eqn:E.
    + constructor; [exact IH|].
      apply sort_insert_hd; [|exact Hhd].
      apply Z.ltb_lt in E. unfold by_priority in E.
      unfold ranked_before, rank. lia.
    + constructor; [now constructor|].
      constructor. apply Z.ltb_ge in E. unfold by_priority in E.
      unfold ranked_before, rank. lia.
Qed.

Lemma array_sort_sorted (l : list CrossModuleSuggestion) :
  Sorted ranked_before (array_sort by_priority l).
Proof.
  induction l as [|x l IH]; simpl; [constructor|].
  now apply sort_insert_sorted.
Qed.

(** An element only moves behind elements of strictly higher rank, so the
    elements of any one priority keep their relative order. *)
Lemma sort_insert_stable (p : Level) (x : CrossModuleSuggestion) (l : list CrossModuleSuggestion) :
  filter (has_priority p) (sort_insert by_priority x l)
  = filter (has_priority p) (x :: l).
Proof.
  induction l as [|y l IH]; [reflexivity|].
  cbn [sort_insert]. destruct (0 <? by_priority x y)%Z eqn:E; [|reflexivity].
  cbn [filter] in *. rewrite IH.
  apply Z.ltb_lt in E. unfold by_priority in E.
  unfold has_priority.
  destruct (priority x), (priority y), p; simpl in *; try reflexivity; lia.
Qed.

Lemma array_sort_stable (p : Level) (l : list CrossModuleSuggestion) :
  filter (has_priority p) (array_sort by_priority l)
  = filter (has_priority p) l.
Proof.
  induction l as [|x l IH]; [reflexivity|].
  cbn [array_sort]. rewrite sort_insert_stable. cbn [filter].
  now rewrite IH.
Qed.

End SortFacts.

Section StoreFacts.

Context {Shared : Type}.
Implicit Types (store : JsMap (list (ModuleInsight Shared))).
Implicit Types (st : Service Shared).

Lemma get_set_eq store (k : jsstring) (v : list (ModuleInsight Shared)) :
  get_or_empty k (map_set k v store) = v.
Proof.
  unfold get_or_empty.
  induction store as [|[k' v'] store IH]; simpl.
  - now rewrite js_eqb_refl.
  - destruct (Js.eqb k k') eqn:E; simpl; rewrite E; [reflexivity|exact IH].
Qed.

Lemma get_set_ne store (k k2 : jsstring) (v : list (ModuleInsight Shared)) :
  Js.eqb k k2 = false ->
  get_or_empty k2 (map_set k v store) = get_or_empty k2 store.
Proof.
  intros Hne. unfold get_or_empty.
  induction store as [|[k' v'] store IH]; simpl.
  - now rewrite js_eqb_sym, Hne.
  - destruct (Js.eqb k k') eqn:E; simpl.
    + apply js_eqb_eq in E; subst k'.
      now rewrite js_eqb_sym, Hne.
    + destruct (Js.eqb k2 k'); [reflexivity|exact IH].
Qed.

(** What a module's list is after an insight [x] went to module [m]. *)
Lemma get_after_add store (m k : jsstring) (x : ModuleInsight Shared) :
  get_or_empty k (map_set m (get_or_empty m store ++ [x]) store)
  = if Js.eqb m k then get_or_empty k store ++ [x] else get_or_empty k store.
Proof.
  destruct (Js.eqb m k) eqn:E.
  - apply js_eqb_eq in E; subst k. apply get_set_eq.
  - now apply get_set_ne.
Qed.

Lemma map_set_values_nonempty store (k : jsstring)
    (v : list (ModuleInsight Shared)) :
  v <> [] -> concat (map_values (map_set k v store)) <> [].
Proof.
  intros Hv. unfold map_values.
  induction store as [|[k' v'] store IH]; simpl.
  - now rewrite app_nil_r.
  - destruct (Js.eqb k k'); simpl; intros H;
      apply app_eq_nil in H as [H1 H2]; [now apply Hv|now apply IH].
Qed.

Lemma found_perm (p : ModuleInsight Shared -> bool)
    (l l' : list (ModuleInsight Shared)) :
  Permutation l l' ->
  found (find p l) = found (find p l').
Proof.
  induction 1 as [|x l l' _ IH|x y l|l l' l'' _ IH1 _ IH2]; simpl.
  - reflexivity.
  - now destruct (p x).
  - now destruct (p x), (p y).
  - congruence.
Qed.

Lemma filter_length_perm {A} (p : A -> bool) (l l' : list A) :
  Permutation l l' -> List.length (filter p l) = List.length (filter p l').
Proof.
  induction 1 as [|x l l' _ IH|x y l|l l' l'' _ IH1 _ IH2]; simpl.
  - reflexivity.
  - destruct (p x); simpl; congruence.
  - now destruct (p x), (p y).
  - congruence.
Qed.

Lemma balance_perm (v v' c c' : list (ModuleInsight Shared)) :
  Permutation v v' -> Permutation c c' ->
  findVisualCastingBalance v c = findVisualCastingBalance v' c'.
Proof.
  intros Hv Hc. unfold findVisualCastingBalance.
  pose proof (found_perm is_warm Hv) as H1.
  pose proof (found_perm is_serious Hc) as H2.
  destruct (find is_warm v), (find is_warm v'); try discriminate;
    destruct (find is_serious c), (find is_serious c');
    try discriminate; reflexivity.
Qed.

Lemma alignment_perm (v v' c c' : list (ModuleInsight Shared)) :
  Permutation v v' -> Permutation c c' ->
  findCastingVisualAlignment v c = findCastingVisualAlignment v' c'.
Proof.
  intros Hv Hc. unfold findCastingVisualAlignment.
  rewrite !length_app.
  now rewrite (filter_length_perm is_thematic Hv),
              (filter_length_perm is_thematic Hc).
Qed.

(** The analysis reads the store only through the contents of the
    casting and the visual lists, whatever their order. *)
Lemma analysis_perm store store' :
  Permutation (get_or_empty (lit "casting") store)
              (get_or_empty (lit "casting") store') ->
  Permutation (get_or_empty (lit "visual") store)
              (get_or_empty (lit "visual") store') ->
  analysis store = analysis store'.
Proof.
  intros Hc Hv. unfold analysis.
  now rewrite (balance_perm Hv Hc), (alignment_perm Hv Hc).
Qed.

Lemma analysis_shape store :
  List.length (analysis store) <= 2 /\ Forall rule_made (analysis store).
Proof.
  unfold analysis, findVisualCastingBalance, findCastingVisualAlignment.
  generalize (get_or_empty (lit "casting") store) as c.
  generalize (get_or_empty (lit "visual") store) as v. intros v c.
  destruct (find is_warm v), (find is_serious c),
    (2 <=? List.length (filter is_thematic c ++ filter is_thematic v));
    simpl; (split; [lia|]); repeat constructor;
    solve [left; split; reflexivity | right; split; reflexivity].
Qed.

Lemma sorted_inv st :
  suggestions_inv st -> suggestions_inv (snd (getCrossModuleSuggestions st)).
Proof.
  intros (Hlen & Hall & Hempty). unfold suggestions_inv; simpl.
  pose proof (array_sort_perm by_priority (crossModuleSuggestions st)) as P.
  repeat split.
  - now rewrite (Permutation_length P).
  - eapply Permutation_Forall; [symmetry; exact P|exact Hall].
  - intros H. unfold getAllInsights in *; simpl in H.
    now rewrite (Hempty H).
Qed.

Lemma reachable_inv st : reachable st -> suggestions_inv st.
Proof.
  induction 1 as [|st m i r d _ IH|st _ IH|st _ IH|st _ IH].
  - repeat split; simpl; auto.
  - unfold suggestions_inv, addModuleInsight; simpl.
    destruct (analysis_shape
      (map_set m (get_or_empty m (insights st) ++
        [{| module := m; insight := i;
            relevance := match r with Some r0 => r0 | None => medium end;
            actionable := true; sharedData := d |}]) (insights st))) as [H1 H2].
    repeat split; [exact H1|exact H2|].
    unfold getAllInsights; simpl. intros H. exfalso.
    revert H. apply map_set_values_nonempty.
    now destruct (get_or_empty m (insights st)).
  - now apply sorted_inv.
  - repeat split; simpl; auto.
  - now apply sorted_inv.
Qed.

End StoreFacts.

Section CollabClaims.

Context {Shared : Type}.
Implicit Types (st : Service Shared).

Lemma count_sorted (p : Level) (l : list CrossModuleSuggestion) :
  count (has_priority p) (array_sort by_priority l) = count (has_priority p) l.
Proof. unfold count. now rewrite array_sort_stable. Qed.

Lemma score_unfold st :
  score (fst (analyzeProjectCoherence st))
  = Z.max 0 (Z.min 100
      (50 + count (has_relevance high) (getAllInsights st) * 10
       + count (has_priority high) (crossModuleSuggestions st) * 5
       - count (has_priority low) (crossModuleSuggestions st) * 3))%Z.
Proof.
  unfold analyzeProjectCoherence, getCrossModuleSuggestions; simpl.
  now rewrite !count_sorted.
Qed.

Lemma count_nonneg {A} (p : A -> bool) (l : list A) : (0 <= count p l)%Z.
Proof. unfold count. lia. Qed.

Lemma rule_made_not_low (l : list CrossModuleSuggestion) :
  Forall rule_made l -> count (has_priority low) l = 0%Z.
Proof.
  unfold count. induction 1 as [|s l Hs _ IH]; [reflexivity|].
  simpl. unfold has_priority at 1.
  destruct Hs as [[_ ->]|[_ ->]]; simpl; exact IH.
Qed.

(** C2: the coherence score is 50 plus 10 per high-relevance insight plus
    5 per high-priority suggestion minus 3 per low-priority suggestion,
    clamped to the range 0..100, in every state of the store and the
    suggestion list; it therefore lies in 0..100, and it is exactly 50 when
    the service holds no insight. *)
Theorem coherence_score_formula st :
  score (fst (analyzeProjectCoherence st))
  = Z.max 0 (Z.min 100
      (50 + 10 * count (has_relevance high) (getAllInsights st)
       + 5 * count (has_priority high) (crossModuleSuggestions st)
       - 3 * count (has_priority low) (crossModuleSuggestions st)))%Z
  /\ (0 <= score (fst (analyzeProjectCoherence st)) <= 100)%Z
  /\ (reachable st -> getAllInsights st = [] ->
      score (fst (analyzeProjectCoherence st)) = 50%Z).
Proof.
  rewrite score_unfold. split; [f_equal; f_equal; lia|].
  split; [lia|].
  intros Hr Hnone. destruct (reachable_inv Hr) as (_ & _ & Hempty).
  rewrite (Hempty Hnone), Hnone. reflexivity.
Qed.

(** C3: adding insight A and then B leaves the same suggestion list as
    adding B and then A, each insight going to its own module in both
    orders; and two stores whose modules hold the same insights, in
    whatever order, get the same suggestion list from the analysis. *)
Theorem suggestions_order_independent :
  (forall st mA iA rA dA mB iB rB dB,
      crossModuleSuggestions
        (addModuleInsight mB iB rB dB (addModuleInsight mA iA rA dA st))
      = crossModuleSuggestions
          (addModuleInsight mA iA rA dA (addModuleInsight mB iB rB dB st)))
  /\ (forall st1 st2,
        (forall k, Permutation (getModuleInsights k st1)
                               (getModuleInsights k st2)) ->
        crossModuleSuggestions (analyzeCrossModuleSynergies st1)
        = crossModuleSuggestions (analyzeCrossModuleSynergies st2)).
Proof.
  split.
  - intros st mA iA rA dA mB iB rB dB. unfold addModuleInsight; simpl.
    apply analysis_perm; rewrite !get_after_add;
      destruct (Js.eqb mA _), (Js.eqb mB _); try reflexivity;
      rewrite <- !app_assoc; apply Permutation_app_head; apply perm_swap.
  - intros st1 st2 H. simpl. apply analysis_perm; apply H.
Qed.

(** C6: when [addModuleInsight] returns, the stored suggestion list is the
    one a full analysis of the store builds: analysing again changes
    nothing, the new insight is the last of its module's list, and the
    suggestions held before the call have no influence on the result. *)
Theorem add_insight_rescans st (m i : jsstring) (r : option Level)
    (d : option Shared) :
  crossModuleSuggestions (addModuleInsight m i r d st)
  = analysis (insights (addModuleInsight m i r d st))
  /\ analyzeCrossModuleSynergies (addModuleInsight m i r d st)
     = addModuleInsight m i r d st
  /\ getModuleInsights m (addModuleInsight m i r d st)
     = getModuleInsights m st ++ [stored_insight m i r d]
  /\ (forall stale,
        addModuleInsight m i r d
          {| insights := insights st; crossModuleSuggestions := stale |}
        = addModuleInsight m i r d st).
Proof.
  repeat split.
  unfold getModuleInsights, addModuleInsight; simpl. apply get_set_eq.
Qed.

(** C7: the list [getCrossModuleSuggestions] returns has every adjacent
    pair in non-increasing priority rank (high 3, medium 2, low 1), holds
    the stored suggestions, and keeps the suggestions of any one priority
    in the order they were stored in; the stored list is that list. *)
Theorem suggestions_ranked_and_stable st :
  Sorted ranked_before (fst (getCrossModuleSuggestions st))
  /\ Permutation (fst (getCrossModuleSuggestions st))
                 (crossModuleSuggestions st)
  /\ (forall p,
        filter (has_priority p) (fst (getCrossModuleSuggestions st))
        = filter (has_priority p) (crossModuleSuggestions st))
  /\ crossModuleSuggestions (snd (getCrossModuleSuggestions st))
     = fst (getCrossModuleSuggestions st).
Proof.
  simpl. repeat split.
  - apply array_sort_sorted.
  - apply array_sort_perm.
  - intros p. apply array_sort_stable.
Qed.

(** C9: in every reachable state the suggestion list has at most two
    suggestions, each of type balance or enhance and of priority medium or
    high; no low-priority suggestion is counted and the score is at least
    50. *)
Theorem reachable_suggestions_shape st :
  reachable st ->
  List.length (crossModuleSuggestions st) <= 2
  /\ Forall (fun s => (type s = balance \/ type s = enhance)
                      /\ (priority s = medium \/ priority s = high))
            (crossModuleSuggestions st)
  /\ count (has_priority low) (fst (getCrossModuleSuggestions st)) = 0%Z
  /\ (50 <= score (fst (analyzeProjectCoherence st)))%Z.
Proof.
  intros Hr. destruct (reachable_inv Hr) as (Hlen & Hall & _).
  pose proof (rule_made_not_low Hall) as Hlow.
  repeat split.
  - exact Hlen.
  - eapply Forall_impl; [|exact Hall].
    intros s [[-> ->]|[-> ->]]; auto.
  - simpl. now rewrite count_sorted.
  - rewrite score_unfold, Hlow.
    pose proof (count_nonneg (has_relevance high) (getAllInsights st)).
    pose proof (count_nonneg (has_priority high) (crossModuleSuggestions st)).
    lia.
Qed.

End CollabClaims.

Section WarmSerious.

Context {Shared : Type}.

Lemma is_warm_text (m t : jsstring) r (d : option Shared) :
  is_warm (stored_insight m t r d) = text_is_warm t.
Proof. unfold is_warm, text_is_warm. simpl. apply orb_comm. Qed.

Lemma is_serious_text (m t : jsstring) r (d : option Shared) :
  is_serious (stored_insight m t r d) = text_is_serious t.
Proof. reflexivity. Qed.

Lemma is_thematic_text (m t : jsstring) r (d : option Shared) :
  is_thematic (stored_insight m t r d) = text_is_thematic t.
Proof. reflexivity. Qed.

Lemma analysis_visual_casting (iv ic : ModuleInsight Shared) :
  is_warm iv = true -> is_serious ic = true ->
  exists b rest,
    (analysis [(lit "visual", [iv]); (lit "casting", [ic])] = b :: rest
     /\ analysis [(lit "casting", [ic]); (lit "visual", [iv])] = b :: rest)
    /\ type b = balance /\ priority b = medium
    /\ modules b = [lit "visual"; lit "casting"]
    /\ Forall (fun e => type e = enhance /\ priority e = high) rest
    /\ List.length rest = (if is_thematic iv && is_thematic ic then 1 else 0).
Proof.
  intros Hw Hs.
  unfold analysis, get_or_empty. simpl map_get. cbv beta iota zeta.
  unfold findVisualCastingBalance, findCastingVisualAlignment.
  simpl find. simpl filter. rewrite Hw, Hs.
  destruct (is_thematic iv), (is_thematic ic); simpl;
    eexists; eexists; repeat split; repeat constructor.
Qed.

End WarmSerious.

(** C5, as the code has it: from the empty service, a visual insight
    whose text contains golden or warm and a casting insight whose text
    contains serious or professional, added in either order, leave a
    list that holds, as it is stored and as [getCrossModuleSuggestions]
    returns it, exactly one balance suggestion, of priority medium, for
    the modules visual and casting. It is the only suggestion unless
    both texts also contain theme or emotion; then the list holds one
    more suggestion, of type enhance and priority high. *)
Theorem warm_serious_balance {Shared : Type} (tv tc : jsstring)
    (rv rc : option Level) (dv dc : option Shared) (st : Service Shared)
    (l : list CrossModuleSuggestion) :
  text_is_warm tv = true -> text_is_serious tc = true ->
  st = addModuleInsight (lit "casting") tc rc dc
         (addModuleInsight (lit "visual") tv rv dv new_service)
  \/ st = addModuleInsight (lit "visual") tv rv dv
            (addModuleInsight (lit "casting") tc rc dc new_service) ->
  l = crossModuleSuggestions st \/ l = fst (getCrossModuleSuggestions st) ->
  exists b rest,
    Permutation l (b :: rest)
    /\ type b = balance /\ priority b = medium
    /\ modules b = [lit "visual"; lit "casting"]
    /\ Forall (fun e => type e = enhance /\ priority e = high) rest
    /\ List.length rest
       = (if text_is_thematic tv && text_is_thematic tc then 1 else 0)
    /\ (text_is_thematic tv && text_is_thematic tc = false -> l = [b]).
Proof.
  intros Hw Hs Hst Hl.
  destruct (@analysis_visual_casting Shared
              (stored_insight (lit "visual") tv rv dv)
              (stored_insight (lit "casting") tc rc dc))
    as (b & rest & [E1 E2] & Hb);
    [now rewrite is_warm_text|now rewrite is_serious_text|].
  rewrite !is_thematic_text in Hb.
  assert (Hstored : crossModuleSuggestions st = b :: rest)
    by (destruct Hst as [-> | ->]; [exact E1|exact E2]).
  assert (Hperm : Permutation l (b :: rest)).
  { destruct Hl as [-> | ->]; [now rewrite Hstored|].
    cbn [getCrossModuleSuggestions fst]. rewrite Hstored.
    apply array_sort_perm. }
  exists b, rest. split; [exact Hperm|].
  destruct Hb as (Ht & Hp & Hm & Hall & Hlen).
  repeat (split; [assumption|]).
  intros Hno. rewrite Hno in Hlen.
  destruct rest; [|discriminate Hlen].
  now apply Permutation_sym, Permutation_length_1_inv in Hperm.
Qed.

(** * Concrete runs of the collaboration service *)

Lemma warm_serious_balance_witness :
  text_is_warm warm_text = true /\ text_is_serious serious_text = true
  /\ (exists b rest,
        Permutation
          (fst (getCrossModuleSuggestions
                  (addModuleInsight (lit "casting") serious_text None None
                     (addModuleInsight (lit "visual") warm_text None None
                        (@new_service unit)))))
          (b :: rest)
        /\ type b = balance /\ priority b = medium
        /\ modules b = [lit "visual"; lit "casting"]
        /\ rest = [])
  /\ text_is_warm (lit "warm theme") = true
  /\ text_is_serious (lit "serious emotion") = true
  /\ (exists b rest,
        Permutation
          (fst (getCrossModuleSuggestions
                  (addModuleInsight (lit "visual") (lit "warm theme")
                     None None
                     (addModuleInsight (lit "casting")
                        (lit "serious emotion") None None
                        (@new_service unit)))))
          (b :: rest)
        /\ type b = balance /\ priority b = medium
        /\ modules b = [lit "visual"; lit "casting"]
        /\ Forall (fun e => type e = enhance /\ priority e = high) rest
        /\ List.length rest = 1).
Proof.
  split; [reflexivity|]. split; [reflexivity|]. split.
  - destruct (@warm_serious_balance unit warm_text serious_text
                None None None None _ _ eq_refl eq_refl
                (or_introl eq_refl) (or_intror eq_refl))
      as (b & rest & Hperm & Ht & Hp & Hm & _ & Hlen & _).
    exists b, rest. repeat (split; [assumption|]).
    destruct rest; [reflexivity|discriminate Hlen].
  - split; [reflexivity|]. split; [reflexivity|].
    destruct (@warm_serious_balance unit (lit "warm theme")
                (lit "serious emotion") None None None None _ _
                eq_refl eq_refl (or_intror eq_refl) (or_intror eq_refl))
      as (b & rest & Hperm & Ht & Hp & Hm & Hall & Hlen & _).
    exists b, rest. repeat (split; [assumption|]). exact Hlen.
Defined.

(** With the texts of the sample scenario the balance suggestion is the
    only one. *)
Example warm_serious_sample :
  map (fun s => (type s, priority s, modules s))
    (crossModuleSuggestions
       (addModuleInsight (lit "casting") serious_text None None
          (addModuleInsight (lit "visual") warm_text None None
             (@new_service unit))))
  = [(balance, medium, [lit "visual"; lit "casting"])].
Proof. vm_compute. reflexivity. Qed.

(** Two texts that also name a theme and an emotion: the second rule
    fires as well and the list has two suggestions, not one. *)
Lemma warm_serious_two_suggestions :
  text_is_warm (lit "warm theme") = true
  /\ text_is_serious (lit "serious emotion") = true
  /\ map (fun s => (type s, priority s))
       (crossModuleSuggestions
          (addModuleInsight (lit "casting") (lit "serious emotion") None None
             (addModuleInsight (lit "visual") (lit "warm theme") None None
                (@new_service unit))))
     = [(balance, medium); (enhance, high)].
Proof. vm_compute. repeat split. Qed.

Lemma coherence_score_formula_witness :
  reachable (@new_service unit) /\ getAllInsights (@new_service unit) = []
  /\ score (fst (analyzeProjectCoherence (@new_service unit))) = 50%Z.
Proof.
  split; [constructor|]. split; [reflexivity|].
  apply (coherence_score_formula (@new_service unit));
    [constructor|reflexivity].
Defined.

Lemma suggestions_order_independent_witness :
  (forall k, Permutation (getModuleInsights k two_insights)
                         (getModuleInsights k two_insights_swapped))
  /\ crossModuleSuggestions (analyzeCrossModuleSynergies two_insights)
     = crossModuleSuggestions (analyzeCrossModuleSynergies two_insights_swapped).
Proof.
  assert (H : forall k, Permutation (getModuleInsights k two_insights)
                          (getModuleInsights k two_insights_swapped)).
  { intros k. unfold getModuleInsights, two_insights, two_insights_swapped,
      addModuleInsight, analyzeCrossModuleSynergies. cbn [insights].
    rewrite !get_after_add.
    destruct (Js.eqb (lit "casting") k), (Js.eqb (lit "visual") k);
      try reflexivity.
    rewrite <- !app_assoc. apply Permutation_app_head, perm_swap. }
  split; [exact H|].
  exact (proj2 (@suggestions_order_independent unit) _ _ H).
Defined.

Lemma reachable_suggestions_shape_witness :
  reachable two_insights
  /\ List.length (crossModuleSuggestions two_insights) <= 2
  /\ Forall (fun s => (type s = balance \/ type s = enhance)
                      /\ (priority s = medium \/ priority s = high))
            (crossModuleSuggestions two_insights)
  /\ count (has_priority low) (fst (getCrossModuleSuggestions two_insights))
     = 0%Z
  /\ (50 <= score (fst (analyzeProjectCoherence two_insights)))%Z.
Proof.
  assert (H : reachable two_insights) by (repeat constructor).
  split; [exact H|]. exact (reachable_suggestions_shape H).
Defined.

(** The score of that state: one high-relevance insight and one
    high-priority suggestion. *)
Example two_insights_score :
  score (fst (analyzeProjectCoherence two_insights)) = 65%Z.
Proof. vm_compute. reflexivity. Qed.

(** * Properties of the enhanced provider service *)

Import Regex Enhanced.

Section WrapperClaims.

Variables AudioSuggestion FoleySuggestion : Type.

(** C8, as the code has it: when the provider call throws, each enhanced
    wrapper still fulfils, with its fixed default: the moods [ambient]
    and the fixed reasoning text, or no suggestions and the fixed
    description. The value is the same for every error: it does not
    depend on what was thrown, which reaches only the console, and only
    sanitized. *)
Theorem enhanced_wrappers_fall_back :
  (forall provider scene visualMood error,
      provider scene visualMood = Rejected error ->
      analyzeSoundMoodEnhanced provider scene visualMood
      = ([(lit "Enhanced sound mood analysis failed:",
           sanitizeErrorMessage error)],
         Fulfilled
           {| moods := [lit "ambient"];
              reasoning :=
                lit "Using default ambient mood due to analysis error." |}))
  /\ (forall provider scene mood camera lighting error,
        provider scene mood camera lighting = Rejected error ->
        generateSoundSuggestionsEnhanced provider scene mood camera lighting
        = ([(lit "Enhanced sound suggestions failed:",
             sanitizeErrorMessage error)],
           Fulfilled
             {| sound_suggestions := @nil AudioSuggestion;
                description :=
                  lit "Sound generation encountered an error." |}))
  /\ (forall provider characters scene camera error,
        provider characters scene camera = Rejected error ->
        generateFoleySuggestionsEnhanced provider characters scene camera
        = ([(lit "Enhanced foley suggestions failed:",
             sanitizeErrorMessage error)],
           Fulfilled
             {| foley_suggestions := @nil FoleySuggestion;
                foley_insights :=
                  lit "Foley generation encountered an error." |})).
Proof.
  repeat split.
  - intros provider scene visualMood error H.
    unfold analyzeSoundMoodEnhanced. now rewrite H.
  - intros provider scene mood camera lighting error H.
    unfold generateSoundSuggestionsEnhanced. now rewrite H.
  - intros provider characters scene camera error H.
    unfold generateFoleySuggestionsEnhanced. now rewrite H.
Qed.

End WrapperClaims.

Lemma enhanced_wrappers_fall_back_witness :
  (fun _ _ : jsstring => @Rejected (list AudioMoodTag) quota_error)
    (lit "a quiet street") (lit "tense")
  = Rejected quota_error
  /\ snd (analyzeSoundMoodEnhanced
            (fun _ _ => Rejected quota_error)
            (lit "a quiet street") (lit "tense"))
     = Fulfilled
         {| moods := [lit "ambient"];
            reasoning :=
              lit "Using default ambient mood due to analysis error." |}.
Proof.
  split; [reflexivity|].
  rewrite (proj1 (enhanced_wrappers_fall_back unit unit)
             (fun _ _ => Rejected quota_error)
             (lit "a quiet street") (lit "tense") quota_error eq_refl).
  reflexivity.
Defined.

(** The fixed default can still repeat the text of the error: a provider
    that throws the string ambient gets the mood ambient back, and the
    message of an error that says error occurs in the fixed
    description. *)
Lemma fallback_repeats_error_text :
  (exists v,
      snd (analyzeSoundMoodEnhanced
             (fun _ _ => Rejected (OtherValue (lit "ambient")))
             (lit "a quiet street") (lit "tense"))
      = Fulfilled v
      /\ moods v = [errorStr (OtherValue (lit "ambient"))])
  /\ (exists v,
        snd (@generateSoundSuggestionsEnhanced unit
               (fun _ _ _ _ => Rejected (ErrorObject (lit "error") None))
               (lit "a quiet street") [lit "tense"] (lit "pan")
               (lit "low key"))
        = Fulfilled v
        /\ includes (description v)
             (errorStr (ErrorObject (lit "error") None)) = true).
Proof.
  split; eexists; split; reflexivity.
Qed.

(** C10: the statistics report text-to-speech as available on every host:
    the test is on the reference to the wrapper object, which is always
    bound, while the wrapper holds a synthesizer only when the host has
    one. *)
Theorem tts_always_reported_available (h : Host) (now : jsstring) :
  ttsAvailable (getEnhancedServiceStats (ttsService h) now) = true
  /\ exists t,
       ttsService h = Some t
       /\ found (synth t) = found (host_speech h).
Proof.
  split; [reflexivity|].
  exists (new_TextToSpeechService h). split; [reflexivity|].
  unfold new_TextToSpeechService, host_speech.
  destruct (window h) as [w|]; [|reflexivity].
  destruct (speechSynthesis w); reflexivity.
Qed.

(** On a host without speech synthesis the report is still positive. *)
Example headless_reported_available :
  host_speech headless = None
  /\ ttsAvailable (getEnhancedServiceStats (ttsService headless) [])
     = true.
Proof. split; reflexivity. Qed.

(** * Properties of the sanitizer *)

Section IncludesFacts.

Lemma startsWith_app (t post : jsstring) : startsWith (t ++ post) t = true.
Proof.
  induction t as [|c t IH]; simpl; [reflexivity|].
  now rewrite Ascii.eqb_refl, IH.
Qed.

Lemma startsWith_split (s t : jsstring) :
  startsWith s t = true -> exists post, s = t ++ post.
Proof.
  revert s; induction t as [|c t IH]; intros s H.
  - now exists s.
  - destruct s as [|d s]; simpl in H; [discriminate|].
    apply andb_true_iff in H as [Hc Ht].
    apply Ascii.eqb_eq in Hc; subst d.
    destruct (IH _ Ht) as [post ->]. now exists post.
Qed.

Lemma startsWith_nil (s : jsstring) : startsWith s [] = true.
Proof. now destruct s. Qed.

Lemma includes_unfold (s t : jsstring) :
  includes s t
  = startsWith s t
    || match s with
       | [] => false
       | _ :: s' => includes s' t
       end.
Proof. now destruct s. Qed.

Lemma includes_cons (c : ascii) (s t : jsstring) :
  includes s t = true -> includes (c :: s) t = true.
Proof. intros H. simpl. rewrite H. apply orb_true_r. Qed.

Lemma includes_app (pre t post : jsstring) :
  includes (pre ++ t ++ post) t = true.
Proof.
  induction pre as [|c pre IH].
  - simpl app. rewrite includes_unfold, startsWith_app. reflexivity.
  - simpl app. now apply includes_cons.
Qed.

Lemma includes_split (s t : jsstring) :
  includes s t = true -> exists pre post, s = pre ++ t ++ post.
Proof.
  induction s as [|c s IH]; simpl; intros H.
  - rewrite orb_false_r in H. destruct (startsWith_split _ _ H) as [post E].
    now exists [], post.
  - apply orb_true_iff in H as [H|H].
    + destruct (startsWith_split _ _ H) as [post E]. now exists [], post.
    + destruct (IH H) as (pre & post & ->). now exists (c :: pre), post.
Qed.

Lemma includes_trans (s t u : jsstring) :
  includes s t = true -> includes t u = true -> includes s u = true.
Proof.
  intros H1 H2.
  destruct (includes_split _ _ H1) as (pre & post & ->).
  destruct (includes_split _ _ H2) as (pre' & post' & ->).
  replace (pre ++ (pre' ++ u ++ post') ++ post)
    with ((pre ++ pre') ++ u ++ (post' ++ post))
    by (now rewrite <- !app_assoc).
  apply includes_app.
Qed.

Lemma first_line_no_newline (s : jsstring) : ~ In newline (first_line s).
Proof.
  induction s as [|c s IH]; simpl; [tauto|].
  destruct (Ascii.eqb c newline) eqn:E; simpl; [tauto|].
  intros [H|H]; [|now apply IH].
  subst c. now rewrite Ascii.eqb_refl in E.
Qed.

Lemma first_line_app (a b : jsstring) :
  one_line a = true -> first_line (a ++ b) = a ++ first_line b.
Proof.
  unfold one_line. induction a as [|c a IH]; simpl; [reflexivity|].
  intros H. apply andb_true_iff in H as [Hc Ha].
  apply negb_true_iff in Hc. rewrite Hc. now rewrite IH.
Qed.

Lemma first_line_message (a b : jsstring) :
  first_line (a ++ [newline] ++ b) = first_line a.
Proof.
  induction a as [|c a IH]; simpl; [reflexivity|].
  destruct (Ascii.eqb c newline); [reflexivity|].
  f_equal. exact IH.
Qed.

End IncludesFacts.

Section ReplaceFacts.

Variable m : option ascii -> jsstring -> option nat.
Variable rep : jsstring.
Hypothesis rep_one_line : one_line rep = true.

(** A replacement pass leaves the first line as it was, or the first line
    of its result carries the replacement text. *)
Lemma replace_first_line (prev : option ascii) (s : jsstring) :
  first_line (replace_from m rep 0 prev s) = first_line s
  \/ includes (first_line (replace_from m rep 0 prev s)) rep = true.
Proof.
  assert (Hrep : forall tail,
             includes (first_line (rep ++ tail)) rep = true).
  { intros tail. rewrite first_line_app by exact rep_one_line.
    apply (includes_app [] rep). }
  revert prev; induction s as [|c s IH]; intros prev; simpl.
  - destruct (m prev []) as [[|n]|]; auto.
  - destruct (m prev (c :: s)) as [[|n]|]; auto.
    simpl. destruct (Ascii.eqb c newline); [now left|].
    destruct (IH (Some c)) as [H|H]; [left; now rewrite H|right].
    now apply includes_cons.
Qed.

End ReplaceFacts.

Section MatcherFacts.

Lemma advance_0 (prev : option ascii) (s : jsstring) :
  advance 0 prev s = (prev, s).
Proof. now destruct s. Qed.

Lemma advance_cons (n : nat) (prev : option ascii) (c : ascii)
    (s : jsstring) :
  advance (S n) prev (c :: s) = advance n (Some c) s.
Proof. reflexivity. Qed.

Lemma advance_length : forall n prev s,
  n <= List.length s ->
  List.length (snd (advance n prev s)) = List.length s - n.
Proof.
  induction n as [|n IH]; intros prev s Hn.
  - rewrite advance_0. simpl. lia.
  - destruct s as [|c s]; simpl in *; [lia|]. apply IH. lia.
Qed.

Lemma advance_add : forall a b prev s,
  a <= List.length s ->
  advance (a + b) prev s
  = advance b (fst (advance a prev s)) (snd (advance a prev s)).
Proof.
  induction a as [|a IH]; intros b prev s Ha.
  - now rewrite advance_0.
  - destruct s as [|c s]; simpl in *; [lia|]. apply IH. lia.
Qed.

Lemma forallb_firstn_add (p : ascii -> bool) : forall a b prev s,
  forallb p (firstn a s) = true ->
  forallb p (firstn b (snd (advance a prev s))) = true ->
  forallb p (firstn (a + b) s) = true.
Proof.
  induction a as [|a IH]; intros b prev s Ha Hb.
  - now rewrite advance_0 in Hb.
  - destruct s as [|c s]; simpl in *.
    + now destruct b.
    + apply andb_true_iff in Ha as [Hc Ha]. rewrite Hc. simpl.
      now apply (IH b (Some c)).
Qed.

(** If some admissible number of characters lets the rest of the pattern
    match, the quantifier matches (with that number or a larger one). *)
Lemma rep_greedy_complete (k : cont) (p : ascii -> bool) :
  forall s lo hi acc prev n,
    lo <= n ->
    match hi with Some h => n <= h | None => True end ->
    n <= List.length s ->
    forallb p (firstn n s) = true ->
    k (acc + n) (fst (advance n prev s)) (snd (advance n prev s)) <> None ->
    rep_greedy k p lo hi acc prev s <> None.
Proof.
  induction s as [|c s IH]; intros lo hi acc prev n Hlo Hhi Hlen Hall Hk.
  - simpl in Hlen. assert (n = 0) by lia; subst n.
    assert (lo = 0) by lia; subst lo.
    rewrite Nat.add_0_r in Hk. simpl in *. now destruct hi as [[|h]|].
  - destruct n as [|n].
    + assert (lo = 0) by lia; subst lo.
      rewrite Nat.add_0_r, advance_0 in Hk. simpl in Hk. simpl.
      destruct hi as [[|h]|]; try assumption;
        (destruct (p c); [|assumption]);
        now destruct (rep_greedy k p 0 _ (S acc) (Some c) s).
    + simpl in Hall, Hk, Hlen. apply andb_true_iff in Hall as [Hp Hall].
      rewrite Nat.add_succ_r in Hk.
      assert (Hrec : rep_greedy k p (pred lo) (option_map pred hi)
                       (S acc) (Some c) s <> None).
      { apply (IH _ _ _ _ n); auto; try lia.
        destruct hi as [h|]; simpl; [lia|exact I]. }
      simpl. destruct hi as [[|h]|]; [lia| |];
        rewrite Hp;
        now destruct (rep_greedy k p (pred lo) _ (S acc) (Some c) s).
Qed.

(** A quantifier that matched took some [n] characters of its class, at
    least its minimum; the rest of the pattern matched from there, and
    from no admissible position further on. *)
Lemma rep_greedy_sound (k : cont) (p : ascii -> bool) :
  forall s lo hi acc prev r,
    rep_greedy k p lo hi acc prev s = Some r ->
    exists n,
      lo <= n /\ n <= List.length s /\ forallb p (firstn n s) = true
      /\ k (acc + n) (fst (advance n prev s)) (snd (advance n prev s))
         = Some r
      /\ forall n', n < n' -> admissible p hi s n' ->
           k (acc + n') (fst (advance n' prev s)) (snd (advance n' prev s))
           = None.
Proof.
  assert (Hstop : forall s lo hi acc prev r,
             (if lo =? 0 then k acc prev s else None) = Some r ->
             (forall n', 0 < n' -> admissible p hi s n' ->
                k (acc + n') (fst (advance n' prev s))
                  (snd (advance n' prev s)) = None) ->
             exists n,
               lo <= n /\ n <= List.length s /\ forallb p (firstn n s) = true
               /\ k (acc + n) (fst (advance n prev s))
                    (snd (advance n prev s)) = Some r
               /\ forall n', n < n' -> admissible p hi s n' ->
                    k (acc + n') (fst (advance n' prev s))
                      (snd (advance n' prev s)) = None).
  { intros s lo hi acc prev r H Hmax. exists 0.
    destruct (Nat.eqb_spec lo 0) as [->|]; [|discriminate].
    rewrite Nat.add_0_r, advance_0. simpl. repeat split; auto; lia. }
  induction s as [|c s IH]; intros lo hi acc prev r H.
  - apply Hstop.
    + simpl in H. now destruct hi as [[|h]|].
    + intros n' Hn' (_ & Hlen & _). simpl in Hlen. lia.
  - simpl in H.
    assert (Hstep :
      hi <> Some 0 ->
      (if p c
       then match rep_greedy k p (pred lo) (option_map pred hi)
                    (S acc) (Some c) s with
            | Some r0 => Some r0
            | None => if lo =? 0 then k acc prev (c :: s) else None
            end
       else if lo =? 0 then k acc prev (c :: s) else None) = Some r ->
      exists n,
        lo <= n /\ n <= List.length (c :: s)
        /\ forallb p (firstn n (c :: s)) = true
        /\ k (acc + n) (fst (advance n prev (c :: s)))
             (snd (advance n prev (c :: s))) = Some r
        /\ forall n', n < n' -> admissible p hi (c :: s) n' ->
             k (acc + n') (fst (advance n' prev (c :: s)))
               (snd (advance n' prev (c :: s))) = None).
    { intros Hhi H'. destruct (p c) eqn:Hp.
      - destruct (rep_greedy k p (pred lo) (option_map pred hi)
                    (S acc) (Some c) s) as [r0|] eqn:Hrec.
        + injection H' as ->.
          destruct (IH _ _ _ _ _ Hrec) as (n & Hlo & Hlen & Hall & Hk & Hmax).
          exists (S n). simpl. rewrite Hp, Hall.
          rewrite Nat.add_succ_r. repeat split; auto; try lia.
          intros [|n'] Hn' (Hb & Hl & Ha); [lia|].
          simpl in Hl, Ha. rewrite Hp in Ha. simpl in Ha.
          rewrite Nat.add_succ_r. apply Hmax; [lia|].
          repeat split; auto; [|lia].
          destruct hi as [h|]; simpl; [lia|exact I].
        + apply Hstop; [exact H'|].
          intros [|n'] Hn' (Hb & Hl & Ha); [lia|].
          simpl in Hl, Ha. rewrite Hp in Ha. simpl in Ha.
          destruct (Nat.eqb_spec lo 0) as [->|]; [|discriminate].
          simpl advance.
          destruct (k (acc + S n') (fst (advance n' (Some c) s))
                      (snd (advance n' (Some c) s))) eqn:Hk; [|reflexivity].
          exfalso.
          apply (@rep_greedy_complete k p s (pred 0) (option_map pred hi)
                   (S acc) (Some c) n'); auto; try lia.
          * destruct hi as [h|]; simpl; [lia|exact I].
          * simpl. rewrite <- Nat.add_succ_r, Hk. discriminate.
      - apply Hstop; [exact H'|].
        intros [|n'] Hn' (_ & _ & Ha); [lia|].
        simpl in Ha. rewrite Hp in Ha. discriminate. }
    destruct hi as [[|h]|].
    + apply Hstop; [exact H|].
      intros n' Hn' (Hb & _). lia.
    + apply Hstep; [discriminate|exact H].
    + apply Hstep; [discriminate|exact H].
Qed.

Lemma word_is_token (c : ascii) : is_word c = true -> token_char c = true.
Proof.
  unfold is_word, token_char. intros H.
  repeat (apply orb_true_iff in H as [H|H]); rewrite H;
    repeat rewrite orb_true_r; reflexivity.
Qed.

Lemma span_len_advance : forall s prev,
  span_len s <= List.length s
  /\ forallb token_char (firstn (span_len s) s) = true
  /\ word_ahead (snd (advance (span_len s) prev s)) = false
  /\ (1 <= span_len s ->
      word_before (fst (advance (span_len s) prev s)) = true).
Proof.
  assert (Hcons : forall c s prev n,
             token_char c = true ->
             (n <= List.length s
              /\ forallb token_char (firstn n s) = true
              /\ word_ahead (snd (advance n (Some c) s)) = false
              /\ word_before (fst (advance n (Some c) s)) = true) ->
             S n <= List.length (c :: s)
             /\ forallb token_char (firstn (S n) (c :: s)) = true
             /\ word_ahead (snd (advance (S n) prev (c :: s))) = false
             /\ (1 <= S n ->
                 word_before (fst (advance (S n) prev (c :: s))) = true)).
  { intros c s prev n Ht (H1 & H2 & H3 & H4).
    rewrite firstn_cons, advance_cons. simpl forallb. rewrite Ht, H2.
    simpl List.length. repeat split; auto; lia. }
  induction s as [|c s IH]; intros prev.
  - simpl. repeat split; auto; lia.
  - cbn [span_len]. destruct (token_char c) eqn:Ht.
    + destruct (IH (Some c)) as (H1 & H2 & H3 & H4).
      destruct (is_word c) eqn:Hw.
      * apply Hcons; [exact Ht|]. repeat split; auto.
        destruct (span_len s) eqn:E; [|apply H4; lia].
        rewrite advance_0. exact Hw.
      * destruct (span_len s) as [|n] eqn:E.
        -- rewrite advance_0. simpl. rewrite Hw.
           repeat split; auto; lia.
        -- apply Hcons; [exact Ht|]. repeat split; auto. apply H4. lia.
    + rewrite advance_0. simpl.
      destruct (is_word c) eqn:Hw.
      * apply word_is_token in Hw. congruence.
      * repeat split; auto; lia.
Qed.

(** A match of the long-token pattern has 40 characters or more, and it
    takes every word character of the run of token characters it is in. *)
Lemma long_token_match (prev : option ascii) (s : jsstring) (r : nat) :
  exec re_long_token prev s = Some r ->
  40 <= r /\ r <= List.length s /\ span_len (snd (advance r prev s)) = 0.
Proof.
  unfold exec, re_long_token, at_least. simpl match_atoms.
  destruct (is_boundary prev s); [|discriminate].
  intros H.
  apply rep_greedy_sound in H as (n & Hlo & Hlen & Hall & Hk & Hmax).
  simpl in Hk.
  destruct (is_boundary _ _) eqn:Hb; [|discriminate].
  injection Hk as <-. repeat split; auto.
  destruct (span_len (snd (advance n prev s))) as [|j] eqn:E; [reflexivity|].
  exfalso.
  destruct (span_len_advance (snd (advance n prev s)) (fst (advance n prev s)))
    as (H1 & H2 & H3 & H4).
  rewrite E in *.
  assert (Hfar : n + S j <= List.length s).
  { rewrite advance_length in H1 by exact Hlen. lia. }
  specialize (Hmax (n + S j)).
  rewrite advance_add in Hmax by exact Hlen.
  unfold is_boundary in Hmax.
  rewrite H3, H4 in Hmax by lia. simpl xorb in Hmax. cbv iota in Hmax.
  assert (Some (0 + (n + S j)) = None); [|discriminate].
  apply Hmax; [lia|]. repeat split; auto.
  now apply forallb_firstn_add with (prev := prev).
Qed.

(** At a word boundary in front of a token stretch of 40 characters or
    more the long-token pattern matches. *)
Lemma long_token_matches_span (prev : option ascii) (s : jsstring) :
  word_before prev = false -> word_ahead s = true -> 40 <= span_len s ->
  exec re_long_token prev s <> None.
Proof.
  intros Hprev Hahead Hspan.
  destruct (span_len_advance s prev) as (Hlen & Hall & Hend & Hbefore).
  unfold exec, re_long_token, at_least. simpl match_atoms.
  unfold is_boundary at 1. rewrite Hprev, Hahead. simpl xorb. cbv iota.
  apply rep_greedy_complete with (n := span_len s); auto.
  simpl. unfold is_boundary. rewrite Hend, Hbefore by lia. discriminate.
Qed.

End MatcherFacts.

Section SpanFacts.

Variable limit : nat.

Lemma no_token_span_mono : forall s k k',
  k' <= k ->
  no_token_span limit k s = true -> no_token_span limit k' s = true.
Proof.
  induction s as [|c s IH]; intros k k' Hk; simpl; [reflexivity|].
  destruct (is_word c).
  - intros H. apply andb_true_iff in H as [H1 H2].
    apply Nat.ltb_lt in H1. apply andb_true_iff. split.
    + apply Nat.ltb_lt. lia.
    + apply (IH (S k)); [lia|exact H2].
  - destruct (token_char c); [|trivial].
    apply IH. destruct k, k'; lia.
Qed.

Lemma no_token_span_tail (c : ascii) (s : jsstring) (k : nat) :
  no_token_span limit k (c :: s) = true -> no_token_span limit 0 s = true.
Proof.
  simpl. destruct (is_word c).
  - intros H. apply andb_true_iff in H as [_ H].
    eapply no_token_span_mono; [|exact H]. lia.
  - destruct (token_char c); [|trivial].
    apply no_token_span_mono. lia.
Qed.

Lemma no_token_span_first_line : forall s k,
  no_token_span limit k s = true ->
  no_token_span limit k (first_line s) = true.
Proof.
  induction s as [|c s IH]; intros k; simpl; [reflexivity|].
  destruct (Ascii.eqb c newline); [reflexivity|]. simpl.
  destruct (is_word c).
  - intros H. apply andb_true_iff in H as [H1 H2].
    rewrite H1. simpl. now apply IH.
  - destruct (token_char c); apply IH.
Qed.

Lemma word_ahead_rev_cons (c : ascii) (l : jsstring) :
  l <> [] -> word_ahead (rev (c :: l)) = word_ahead (rev l).
Proof.
  intros Hl. simpl. destruct (rev l) as [|a r] eqn:E; [|reflexivity].
  exfalso. apply Hl. rewrite <- (rev_involutive l), E. reflexivity.
Qed.

(** Inside a token stretch the counter runs on to its last character. *)
Lemma span_continues : forall rest s k,
  1 <= k -> rest <> [] -> forallb token_char rest = true ->
  word_ahead (rev rest) = true -> startsWith s rest = true ->
  no_token_span limit k s = true -> k + List.length rest < limit.
Proof.
  induction rest as [|c rest IH]; intros s k Hk Hne Hall Hlast Hs Hrun;
    [congruence|].
  destruct s as [|d s]; simpl in Hs; [discriminate|].
  apply andb_true_iff in Hs as [Hc Hs]. apply Ascii.eqb_eq in Hc; subst d.
  simpl in Hall. apply andb_true_iff in Hall as [Ht Hall].
  simpl in Hrun.
  destruct rest as [|c2 rest'].
  - simpl in Hlast. rewrite Hlast in Hrun.
    apply andb_true_iff in Hrun as [H1 _]. apply Nat.ltb_lt in H1.
    simpl. lia.
  - rewrite word_ahead_rev_cons in Hlast by discriminate.
    assert (Hnext : no_token_span limit (S k) s = true).
    { destruct (is_word c).
      - now apply andb_true_iff in Hrun as [_ H2].
      - rewrite Ht in Hrun. destruct k; [lia|exact Hrun]. }
    assert (S k + List.length (c2 :: rest') < limit).
    { apply (IH s); auto; try lia; discriminate. }
    simpl in *. lia.
Qed.

Lemma starts_with_span (core s : jsstring) (k : nat) :
  core <> [] -> forallb token_char core = true ->
  word_bounded core = true -> startsWith s core = true ->
  no_token_span limit k s = true -> k + List.length core < limit.
Proof.
  intros Hne Hall Hb Hs Hrun.
  destruct core as [|w rest]; [congruence|].
  unfold word_bounded in Hb. apply andb_true_iff in Hb as [Hw Hlast].
  simpl in Hw.
  destruct s as [|d s]; simpl in Hs; [discriminate|].
  apply andb_true_iff in Hs as [Hc Hs]. apply Ascii.eqb_eq in Hc; subst d.
  simpl in Hall. apply andb_true_iff in Hall as [_ Hall].
  simpl in Hrun. rewrite Hw in Hrun.
  apply andb_true_iff in Hrun as [H1 H2]. apply Nat.ltb_lt in H1.
  destruct rest as [|c2 rest'].
  - simpl. lia.
  - rewrite word_ahead_rev_cons in Hlast by discriminate.
    assert (S k + List.length (c2 :: rest') < limit).
    { eapply span_continues; eauto; try lia; discriminate. }
    simpl in *. lia.
Qed.

Lemma no_token_span_excludes : forall s k core,
  limit <= List.length core -> core <> [] ->
  forallb token_char core = true -> word_bounded core = true ->
  no_token_span limit k s = true -> includes s core = false.
Proof.
  induction s as [|c s IH]; intros k core Hlen Hne Hall Hb Hrun.
  - destruct core; [congruence|reflexivity].
  - rewrite includes_unfold. apply orb_false_iff. split.
    + destruct (startsWith (c :: s) core) eqn:E; [|reflexivity].
      assert (k + List.length core < limit)
        by (eapply starts_with_span; eassumption).
      lia.
    + apply (IH 0); auto. eapply no_token_span_tail; eassumption.
Qed.

Section Passes.

Variable m : option ascii -> jsstring -> option nat.
Variable rep : jsstring.

(** The replacement text ends every stretch before it and starts none. *)
Hypothesis rep_breaks_spans :
  forall k tail,
    no_token_span limit k (rep ++ tail) = no_token_span limit 0 tail.

(** A pass that puts such a text in place of its matches makes no token
    stretch longer. *)
Lemma replace_keeps_no_token_span : forall s skip prev k,
  no_token_span limit k s = true ->
  no_token_span limit (if skip =? 0 then k else 0)
    (replace_from m rep skip prev s) = true.
Proof.
  induction s as [|c s IH]; intros skip prev k Hrun.
  - destruct skip as [|j]; simpl; [|reflexivity].
    destruct (m prev []) as [[|n]|]; try reflexivity;
      now rewrite rep_breaks_spans.
  - assert (Htail : no_token_span limit 0 s = true)
      by (eapply no_token_span_tail; eassumption).
    assert (Hcopy : forall k', k' <= k ->
               no_token_span limit k'
                 (c :: replace_from m rep 0 (Some c) s) = true).
    { intros k' Hk'.
      apply (no_token_span_mono _ Hk') in Hrun.
      simpl. simpl in Hrun. destruct (is_word c).
      - apply andb_true_iff in Hrun as [H1 H2]. rewrite H1. simpl.
        exact (IH 0 (Some c) (S k') H2).
      - destruct (token_char c).
        + exact (IH 0 (Some c) _ Hrun).
        + exact (IH 0 (Some c) 0 Hrun). }
    destruct skip as [|j]; simpl.
    + destruct (m prev (c :: s)) as [[|n]|].
      * rewrite rep_breaks_spans. apply Hcopy. lia.
      * rewrite rep_breaks_spans.
        pose proof (IH n (Some c) 0 Htail) as H.
        now destruct n.
      * now apply Hcopy.
    + pose proof (IH j (Some c) 0 Htail) as H.
      now destruct j.
Qed.

End Passes.

End SpanFacts.

Section FirstLineFacts.

Lemma first_line_one_line (s : jsstring) : one_line (first_line s) = true.
Proof.
  unfold one_line. induction s as [|c s IH]; simpl; [reflexivity|].
  destruct (Ascii.eqb c newline) eqn:E; simpl; [reflexivity|].
  now rewrite E, IH.
Qed.

Lemma first_line_prefix (s : jsstring) :
  exists rest, s = first_line s ++ rest.
Proof.
  induction s as [|c s [rest IH]]; simpl; [now exists []|].
  destruct (Ascii.eqb c newline).
  - now exists (c :: s).
  - exists rest. simpl. now rewrite <- IH.
Qed.

Lemma one_line_app (a b : jsstring) :
  one_line (a ++ b) = one_line a && one_line b.
Proof. apply forallb_app. Qed.

Lemma includes_app_left (a s t : jsstring) :
  includes s t = true -> includes (a ++ s) t = true.
Proof.
  intros H. induction a as [|c a IH]; simpl app; [exact H|].
  now apply includes_cons.
Qed.

(** A text found on the first line lies in the input behind a prefix
    without line feed. *)
Lemma includes_first_line (s t : jsstring) :
  includes (first_line s) t = true ->
  exists pre post, s = pre ++ t ++ post /\ one_line pre = true.
Proof.
  intros H. destruct (includes_split _ _ H) as (pre & post & E).
  destruct (first_line_prefix s) as [rest Hs].
  exists pre, (post ++ rest). split.
  - rewrite Hs at 1. rewrite E. now rewrite <- !app_assoc.
  - pose proof (first_line_one_line s) as L. rewrite E in L.
    rewrite one_line_app in L. now apply andb_true_iff in L as [L _].
Qed.

End FirstLineFacts.

Section PatternFacts.

(** A match consumes characters of the input, each accepted by one of
    the pattern's atoms. *)
Lemma match_atoms_sound : forall re acc prev s r,
  match_atoms re acc prev s = Some r ->
  exists n,
    r = acc + n /\ n <= List.length s
    /\ forallb (accepts re) (firstn n s) = true.
Proof.
  induction re as [|a re IH]; intros acc prev s r H.
  - simpl in H. injection H as <-. exists 0. simpl. repeat split; lia.
  - destruct a as [p lo hi|]; simpl in H.
    + apply rep_greedy_sound in H as (n1 & _ & Hlen1 & Hall1 & Hk & _).
      apply IH in Hk as (n2 & -> & Hlen2 & Hall2).
      exists (n1 + n2). split; [lia|].
      rewrite advance_length in Hlen2 by exact Hlen1. split; [lia|].
      apply forallb_firstn_add with (prev := prev).
      * eapply forallb_forall. intros c Hc.
        eapply forallb_forall in Hall1; eauto.
        unfold accepts. simpl. now rewrite Hall1.
      * eapply forallb_forall. intros c Hc.
        eapply forallb_forall in Hall2; eauto.
        unfold accepts in *. simpl. rewrite Hall2. apply orb_true_r.
    + destruct (is_boundary prev s); [|discriminate].
      apply IH in H as (n & -> & Hlen & Hall). exists n.
      repeat split; auto.
Qed.

(** A pattern that opens with one mandatory character matches only where
    that character stands, and not the empty text. *)
Lemma exec_first_char (p : ascii -> bool) (re : regex)
    (prev : option ascii) (s : jsstring) (r : nat) :
  exec (one p :: re) prev s = Some r ->
  1 <= r /\ starts_in p s = true.
Proof.
  unfold exec, one. simpl match_atoms. intros H.
  apply rep_greedy_sound in H as (n & Hlo & Hlen & Hall & Hk & _).
  apply match_atoms_sound in Hk as (n2 & -> & _). split; [lia|].
  destruct n as [|n]; [lia|]. destruct s as [|c s]; simpl in *; [lia|].
  now apply andb_true_iff in Hall as [Hc _].
Qed.

Lemma exec_sound (re : regex) (prev : option ascii) (s : jsstring)
    (r : nat) :
  exec re prev s = Some r ->
  r <= List.length s /\ forallb (accepts re) (firstn r s) = true.
Proof.
  unfold exec. intros H.
  apply match_atoms_sound in H as (n & -> & Hlen & Hall). auto.
Qed.

End PatternFacts.

Section Survival.

Variable m : option ascii -> jsstring -> option nat.
Variable rep : jsstring.
Variables inside start : ascii -> bool.

Hypothesis rep_one_line : one_line rep = true.

(** Matches are not empty, start with a [start] character and consist of
    [inside] characters. *)
Hypothesis m_sound : forall prev s n,
  m prev s = Some n ->
  1 <= n /\ starts_in start s = true
  /\ forallb inside (firstn n s) = true.

(** The marker: its first character is in no match, and none of its
    characters starts one. *)
Variable o : ascii.
Variable body : jsstring.
Hypothesis o_outside : inside o = false.
Hypothesis marker_no_start :
  forallb (fun c => negb (start c)) (o :: body) = true.
Hypothesis marker_one_line : one_line (o :: body) = true.

Lemma copy_unmatched : forall part prev post,
  forallb (fun c => negb (start c)) part = true ->
  exists prev',
    replace_from m rep 0 prev (part ++ post)
    = part ++ replace_from m rep 0 prev' post.
Proof.
  induction part as [|c part IH]; intros prev post Hno.
  - now exists prev.
  - simpl in Hno. apply andb_true_iff in Hno as [Hc Hno].
    apply negb_true_iff in Hc.
    destruct (IH (Some c) post Hno) as [prev' E].
    exists prev'. simpl app. cbn [replace_from].
    destruct (m prev (c :: part ++ post)) as [n|] eqn:Em.
    + apply m_sound in Em as (_ & Hs & _). simpl in Hs. congruence.
    + now rewrite E.
Qed.

Lemma match_stops_before : forall pre n tail,
  forallb inside (firstn n (pre ++ o :: tail)) = true ->
  n <= List.length pre.
Proof.
  induction pre as [|c pre IH]; intros n tail H.
  - destruct n as [|n]; [simpl; lia|].
    simpl in H. rewrite o_outside in H. discriminate.
  - destruct n as [|n]; [simpl; lia|].
    simpl in H. apply andb_true_iff in H as [_ H].
    apply IH in H. simpl. lia.
Qed.

Lemma marker_survives_from : forall pre skip prev post,
  one_line pre = true -> skip <= List.length pre ->
  includes
    (first_line (replace_from m rep skip prev (pre ++ (o :: body) ++ post)))
    (o :: body) = true.
Proof.
  induction pre as [|c pre IH]; intros skip prev post Hline Hskip.
  - simpl in Hskip. assert (skip = 0) by lia; subst skip.
    change ([] ++ (o :: body) ++ post) with ((o :: body) ++ post).
    destruct (copy_unmatched (o :: body) prev post marker_no_start)
      as [prev' E].
    rewrite E, first_line_app by exact marker_one_line.
    apply (includes_app [] (o :: body)).
  - unfold one_line in Hline. simpl in Hline.
    apply andb_true_iff in Hline as [Hc Hline].
    apply negb_true_iff in Hc.
    destruct skip as [|j].
    + simpl app. cbn [replace_from].
      destruct (m prev (c :: pre ++ o :: body ++ post)) as [n|] eqn:Em.
      * destruct (m_sound Em) as (Hn & _ & Hin).
        apply (match_stops_before (c :: pre)) in Hin.
        destruct n as [|n]; [lia|].
        rewrite first_line_app by exact rep_one_line.
        apply includes_app_left.
        apply (IH n (Some c) post Hline). simpl in Hin. lia.
      * simpl. rewrite Hc. apply includes_cons.
        apply (IH 0 (Some c) post Hline). lia.
    + simpl app. cbn [replace_from].
      apply (IH j (Some c) post Hline). simpl in Hskip. lia.
Qed.

(** A marker on the first line is still on the first line after the
    pass. *)
Lemma marker_survives (text : jsstring) :
  includes (first_line text) (o :: body) = true ->
  includes (first_line (replace_from m rep 0 None text)) (o :: body) = true.
Proof.
  intros H. destruct (includes_first_line _ _ H) as (pre & post & -> & Hl).
  apply marker_survives_from; [exact Hl|lia].
Qed.

End Survival.

Section LongTokenPass.

Lemma marker_breaks_spans (k : nat) (tail : jsstring) :
  no_token_span 40 k (REDACTED_TOKEN ++ tail) = no_token_span 40 0 tail.
Proof. reflexivity. Qed.

Lemma env_marker_breaks_spans (k : nat) (tail : jsstring) :
  no_token_span 40 k (ENV_VAR ++ tail) = no_token_span 40 0 tail.
Proof. reflexivity. Qed.

(** The long-token pass leaves no token stretch of 40 characters. [k] is
    the counter at the end of what is already written. Either what the
    input can still add to the stretch is too short to complete it, or the
    run of token characters ahead has no word character left, or a fresh
    stretch starts behind a non-word character, where the pattern takes
    it when it is long enough. *)
Lemma long_token_scan : forall s skip prev k,
  (k + span_len (snd (advance skip prev s)) < 40
   \/ span_len (snd (advance skip prev s)) = 0
   \/ (k = 0 /\ word_before (fst (advance skip prev s)) = false)) ->
  (skip = 0 \/ k = 0) ->
  no_token_span 40 k
    (replace_from (exec re_long_token) REDACTED_TOKEN skip prev s) = true.
Proof.
  induction s as [|c s IH]; intros skip prev k Hinv Hskip.
  - destruct skip as [|j]; simpl; [|reflexivity].
    destruct (exec re_long_token prev []) as [[|n]|]; reflexivity.
  - destruct skip as [|j].
    + rewrite advance_0 in Hinv. cbn [fst snd span_len] in Hinv.
      cbn [replace_from].
      destruct (exec re_long_token prev (c :: s)) as [r|] eqn:E.
      * destruct (long_token_match _ _ E) as (Hr & _ & Hend).
        destruct r as [|n]; [lia|].
        rewrite marker_breaks_spans. apply IH; [|now right].
        right; left. exact Hend.
      * cbn [no_token_span]. destruct (is_word c) eqn:Hw.
        -- rewrite (word_is_token _ Hw) in Hinv.
           assert (Hshort : k + S (span_len s) < 40).
           { destruct Hinv as [H|[H|[-> Hprev]]]; [exact H|discriminate|].
             destruct (Nat.lt_ge_cases (S (span_len s)) 40) as [H|H];
               [exact H|].
             exfalso. apply (long_token_matches_span prev (c :: s));
               [exact Hprev|exact Hw| |exact E].
             cbn [span_len]. now rewrite (word_is_token _ Hw), Hw. }
           apply andb_true_iff. split; [apply Nat.ltb_lt; lia|].
           apply IH; [|now left]. left. rewrite advance_0. simpl. lia.
        -- destruct (token_char c) eqn:Ht.
           ++ apply IH; [|now left]. rewrite advance_0. cbn [fst snd].
              destruct (span_len s) as [|j] eqn:Es; [now right; left|].
              destruct Hinv as [H|[H|[-> Hprev]]]; [|discriminate|].
              ** left. destruct k; lia.
              ** right; right. simpl. auto.
           ++ apply IH; [|now left]. right; right.
              rewrite advance_0. simpl. auto.
    + destruct Hskip as [Hskip| ->]; [discriminate|].
      cbn [replace_from]. apply IH; [|now right]. exact Hinv.
Qed.

Lemma long_token_pass_no_span (text : jsstring) :
  no_token_span 40 0 (replace_all re_long_token REDACTED_TOKEN text) = true.
Proof.
  unfold replace_all. apply long_token_scan; [|now left].
  right; right. rewrite advance_0. auto.
Qed.

Lemma redact_no_token_span (text : jsstring) :
  no_token_span 40 0 (redact text) = true.
Proof.
  unfold redact, replace_all at 1.
  apply (@replace_keeps_no_token_span 40 (exec re_env_var) ENV_VAR
           env_marker_breaks_spans _ 0 None 0).
  apply long_token_pass_no_span.
Qed.

Lemma replacements_are_markers :
  Forall (fun rep => one_line rep = true
                     /\ forall text,
                          includes text rep = true -> has_marker text = true)
    [API_KEY; api_key_REDACTED; Bearer_REDACTED; REDACTED_TOKEN].
Proof.
  unfold has_marker.
  repeat constructor; intros text H;
    try (rewrite H; repeat rewrite orb_true_r; reflexivity).
  - rewrite (includes_trans text api_key_REDACTED (lit "[REDACTED]") H)
      by reflexivity.
    repeat rewrite orb_true_r; reflexivity.
  - rewrite (includes_trans text Bearer_REDACTED (lit "[REDACTED]") H)
      by reflexivity.
    repeat rewrite orb_true_r; reflexivity.
Qed.

(** One pass: the first line of its result carries a marker, or it is the
    first line as it was before. *)
Lemma pass_first_line (re : regex) (rep text : jsstring) :
  one_line rep = true
  /\ (forall t, includes t rep = true -> has_marker t = true) ->
  has_marker (first_line (replace_all re rep text)) = true
  \/ first_line (replace_all re rep text) = first_line text.
Proof.
  intros [Hline Hmark]. unfold replace_all.
  destruct (replace_first_line (exec re) rep Hline None text) as [H|H].
  - now right.
  - left. now apply Hmark.
Qed.

(** After the passes for keys and tokens the first line carries a marker,
    or no pass touched it. *)
Lemma key_passes_first_line (text : jsstring) :
  has_marker
    (first_line
       (replace_all re_long_token REDACTED_TOKEN
          (replace_all re_bearer Bearer_REDACTED
             (replace_all re_api_key api_key_REDACTED
                (replace_all re_google_key API_KEY text))))) = true
  \/ first_line
       (replace_all re_long_token REDACTED_TOKEN
          (replace_all re_bearer Bearer_REDACTED
             (replace_all re_api_key api_key_REDACTED
                (replace_all re_google_key API_KEY text))))
     = first_line text.
Proof.
  pose proof replacements_are_markers as M.
  repeat match goal with
         | H : Forall _ (_ :: _) |- _ => inversion_clear H
         end.
  repeat match goal with
         | |- context [first_line (replace_all ?re ?rep ?t)] =>
             let H := fresh "P" in
             destruct (pass_first_line re rep t) as [H|H];
             [assumption|now left|rewrite H; clear H]
         end.
  now right.
Qed.

Lemma env_var_match (prev : option ascii) (s : jsstring) (n : nat) :
  exec re_env_var prev s = Some n ->
  1 <= n /\ starts_in (is_char "p") s = true
  /\ forallb (accepts re_env_var) (firstn n s) = true.
Proof.
  intros H. split; [|split].
  - exact (proj1 (exec_first_char _ _ _ _ H)).
  - exact (proj2 (exec_first_char _ _ _ _ H)).
  - exact (proj2 (exec_sound _ _ _ H)).
Qed.

(** The pass for environment variables leaves the markers of the earlier
    passes on the first line where they are. *)
Lemma env_pass_keeps_marker (text : jsstring) :
  has_marker (first_line text) = true ->
  has_marker (first_line (replace_all re_env_var ENV_VAR text)) = true.
Proof.
  unfold has_marker, replace_all. intros H.
  assert (S : forall body,
             forallb (fun c => negb (is_char "p" c)) ("["%char :: body) = true ->
             one_line ("["%char :: body) = true ->
             includes (first_line text) ("["%char :: body) = true ->
             includes
               (first_line (replace_from (exec re_env_var) ENV_VAR 0 None text))
               ("["%char :: body) = true).
  { intros body Hstart Hline.
    apply (marker_survives (exec re_env_var) ENV_VAR
             (accepts re_env_var) (is_char "p") eq_refl env_var_match
             "[" body eq_refl Hstart Hline). }
  apply orb_true_iff in H as [H|H]; [apply orb_true_iff in H as [H|H]|].
  - apply (S (lit "API_KEY]") eq_refl eq_refl) in H.
    apply orb_true_iff; left. apply orb_true_iff; left. exact H.
  - apply (S (lit "REDACTED]") eq_refl eq_refl) in H.
    apply orb_true_iff; left. apply orb_true_iff; right. exact H.
  - apply (S (lit "REDACTED_TOKEN]") eq_refl eq_refl) in H.
    apply orb_true_iff; right. exact H.
Qed.

End LongTokenPass.

(** C1, as the code has it: for every thrown value the sanitized text has
    no line feed, and no stretch of 40 or more characters out of letters,
    digits, hyphen and underscore that begins and ends with a letter, a
    digit or an underscore is left in it; so a token that has such a
    stretch (a 45-character token without a hyphen at its ends, say) is
    not in it verbatim; and when such a token stands on the first line of
    the error text, the sanitized text carries the marker of a redacted
    key or token. *)
Theorem sanitize_redacts_bounded_tokens (error : thrown)
    (tok core : jsstring) :
  40 <= List.length core -> forallb token_char core = true ->
  word_bounded core = true -> includes tok core = true ->
  includes (sanitizeErrorMessage error) tok = false
  /\ ~ In newline (sanitizeErrorMessage error)
  /\ (includes (first_line (errorStr error)) tok = true ->
      has_marker (sanitizeErrorMessage error) = true).
Proof.
  intros Hlen Hall Hb Hcore.
  assert (Hne : core <> []) by (intros ->; simpl in Hlen; lia).
  assert (Hout : forall text,
             no_token_span 40 0 text = true ->
             includes (first_line text) tok = false).
  { intros text Hspan.
    destruct (includes (first_line text) tok) eqn:E; [|reflexivity].
    pose proof (includes_trans _ _ _ E Hcore) as Hin.
    rewrite (@no_token_span_excludes 40 (first_line text) 0 core) in Hin;
      auto.
    now apply no_token_span_first_line. }
  split; [apply Hout, redact_no_token_span|].
  split; [apply first_line_no_newline|].
  intros Hin. unfold sanitizeErrorMessage, redact.
  apply env_pass_keeps_marker.
  destruct (key_passes_first_line (fullErrorText error)) as [H|H];
    [exact H|].
  exfalso.
  pose proof (Hout _ (long_token_pass_no_span
                        (replace_all re_bearer Bearer_REDACTED
                           (replace_all re_api_key api_key_REDACTED
                              (replace_all re_google_key API_KEY
                                 (fullErrorText error)))))) as Hgone.
  rewrite H in Hgone. unfold fullErrorText in Hgone.
  rewrite first_line_message in Hgone. congruence.
Qed.

Lemma sanitize_redacts_bounded_tokens_witness :
  40 <= List.length word_token /\ forallb token_char word_token = true
  /\ word_bounded word_token = true
  /\ includes word_token word_token = true
  /\ includes (first_line (errorStr quota_error)) word_token = true
  /\ includes (sanitizeErrorMessage quota_error) word_token = false
  /\ has_marker (sanitizeErrorMessage quota_error) = true.
Proof.
  assert (H1 : 40 <= List.length word_token) by (vm_compute; lia).
  assert (H2 : forallb token_char word_token = true) by reflexivity.
  assert (H3 : word_bounded word_token = true) by reflexivity.
  assert (H4 : includes word_token word_token = true) by reflexivity.
  assert (H5 : includes (first_line (errorStr quota_error)) word_token = true)
    by reflexivity.
  destruct (@sanitize_redacts_bounded_tokens quota_error word_token
              word_token H1 H2 H3 H4) as (G1 & _ & G3).
  repeat split; auto.
Defined.

(** What the sanitizer makes of that error. *)
Example sanitize_quota_error :
  sanitizeErrorMessage quota_error
  = lit "quota exceeded for key [REDACTED_TOKEN]".
Proof. vm_compute. reflexivity. Qed.

(** Two inputs on which the statement over the whole token alphabet
    fails: a token with hyphens at both ends has no stretch of 40
    characters between word boundaries and stays as it is; and a token on
    the second line of the message goes with that line, marker and all. *)
Lemma sanitize_token_counterexamples :
  (List.length hyphen_token = 45
   /\ forallb token_char hyphen_token = true
   /\ includes (errorStr (OtherValue (lit "upstream said " ++ hyphen_token)))
        hyphen_token = true
   /\ includes
        (sanitizeErrorMessage (OtherValue (lit "upstream said " ++ hyphen_token)))
        hyphen_token = true
   /\ includes
        (sanitizeErrorMessage (OtherValue (lit "upstream said " ++ hyphen_token)))
        (lit "[")
      = false)
  /\ (List.length word_token = 45
      /\ forallb token_char word_token = true
      /\ includes
           (errorStr (OtherValue (lit "failed" ++ [newline] ++ word_token)))
           word_token = true
      /\ sanitizeErrorMessage
           (OtherValue (lit "failed" ++ [newline] ++ word_token))
         = lit "failed").
Proof. vm_compute. repeat split. Qed.

(** * Further properties of the casting and visual service *)

Section RankedFacts.

Lemma sort_insert_front (x : CrossModuleSuggestion)
    (l : list CrossModuleSuggestion) :
  HdRel ranked_before x l -> sort_insert by_priority x l = x :: l.
Proof.
  intros H. destruct l as [|y l]; [reflexivity|]. simpl.
  inversion_clear H as [|? ? Hxy]. unfold ranked_before, rank in Hxy.
  destruct (Z.ltb_spec 0 (by_priority x y)) as [Hlt|]; [|reflexivity].
  unfold by_priority in Hlt. lia.
Qed.

(** A ranked list is left as it is by the sort. *)
Lemma sorted_fixed (l : list CrossModuleSuggestion) :
  Sorted ranked_before l -> array_sort by_priority l = l.
Proof.
  induction 1 as [|x l Hl IH Hhd]; [reflexivity|].
  simpl. rewrite IH. now apply sort_insert_front.
Qed.

Lemma array_sort_idem (l : list CrossModuleSuggestion) :
  array_sort by_priority (array_sort by_priority l) = array_sort by_priority l.
Proof. apply sorted_fixed, array_sort_sorted. Qed.

Lemma same_priority_sorted (p : Level) (l : list CrossModuleSuggestion) :
  Forall (fun s => priority s = p) l -> Sorted ranked_before l.
Proof.
  induction 1 as [|x l Hx Hl IH]; constructor; [exact IH|].
  destruct Hl as [|y l Hy _]; constructor.
  unfold ranked_before, rank. rewrite Hx, Hy. lia.
Qed.

End RankedFacts.

Section StaleFacts.

Context {Shared : Type}.
Implicit Types (st : Service Shared).

(** The stored list is the analysis of the store, as built or as ranked
    by a later read. *)
Lemma reachable_fresh st :
  reachable st ->
  crossModuleSuggestions st = analysis (insights st)
  \/ crossModuleSuggestions st
     = array_sort by_priority (analysis (insights st)).
Proof.
  induction 1 as [|st m i r d _ _|st _ IH|st _ _|st _ IH]; simpl.
  - now left.
  - now left.
  - right. destruct IH as [->| ->]; [reflexivity|apply array_sort_idem].
  - now left.
  - right. destruct IH as [->| ->]; [reflexivity|apply array_sort_idem].
Qed.

End StaleFacts.

(** X1: in every reachable state of the casting service
    [getCrossModuleSuggestions] returns the ranked analysis of the store as
    it is now, and the stored list holds exactly the suggestions of that
    analysis: no read, clear or report leaves a stale list behind. *)
Theorem ranked_analysis_in_every_state {Shared : Type} (st : Service Shared) :
  reachable st ->
  fst (getCrossModuleSuggestions st)
  = array_sort by_priority (analysis (insights st))
  /\ Permutation (crossModuleSuggestions st) (analysis (insights st)).
Proof.
  intros Hr. simpl.
  destruct (reachable_fresh Hr) as [->| ->].
  - split; reflexivity.
  - split; [apply array_sort_idem|apply array_sort_perm].
Qed.

Lemma ranked_analysis_in_every_state_witness :
  reachable (snd (getCrossModuleSuggestions two_insights))
  /\ fst (getCrossModuleSuggestions (snd (getCrossModuleSuggestions two_insights)))
     = array_sort by_priority
         (analysis (insights (snd (getCrossModuleSuggestions two_insights)))).
Proof.
  assert (H : reachable (snd (getCrossModuleSuggestions two_insights)))
    by (repeat constructor).
  split; [exact H|]. exact (proj1 (ranked_analysis_in_every_state H)).
Defined.

(** X2: reading is idempotent in every state: a second
    [getCrossModuleSuggestions] returns the list of the first and leaves
    the service as the first left it, the insights are not touched, and a
    second [analyzeProjectCoherence] gives the report of the first. *)
Theorem reading_is_idempotent {Shared : Type} (st : Service Shared) :
  getCrossModuleSuggestions (snd (getCrossModuleSuggestions st))
  = getCrossModuleSuggestions st
  /\ insights (snd (getCrossModuleSuggestions st)) = insights st
  /\ analyzeProjectCoherence (snd (analyzeProjectCoherence st))
     = analyzeProjectCoherence st
  /\ insights (snd (analyzeProjectCoherence st)) = insights st.
Proof.
  unfold analyzeProjectCoherence, getCrossModuleSuggestions, getAllInsights.
  simpl. rewrite !array_sort_idem. repeat split.
Qed.

Section StoreInvariants.

Context {Shared : Type}.
Implicit Types (store : JsMap (list (ModuleInsight Shared))).
Implicit Types (st : Service Shared).

Lemma found_find (p : ModuleInsight Shared -> bool)
    (l : list (ModuleInsight Shared)) :
  found (find p l) = existsb p l.
Proof.
  induction l as [|x l IH]; simpl; [reflexivity|].
  now destruct (p x).
Qed.

Lemma all_insights_after_add store (m : jsstring) (x : ModuleInsight Shared) :
  Permutation
    (concat (map_values (map_set m (get_or_empty m store ++ [x]) store)))
    (x :: concat (map_values store)).
Proof.
  unfold map_values, get_or_empty.
  induction store as [|[k v] store IH]; simpl.
  - reflexivity.
  - destruct (Js.eqb m k); simpl.
    + rewrite <- app_assoc. simpl. symmetry. apply Permutation_middle.
    + rewrite IH. symmetry. apply Permutation_middle.
Qed.

Lemma map_get_in store (k : jsstring) (v : list (ModuleInsight Shared)) :
  map_get k store = Some v -> In (k, v) store.
Proof.
  induction store as [|[k' v'] store IH]; simpl; [discriminate|].
  destruct (Js.eqb k k') eqn:E.
  - apply js_eqb_eq in E; subst k'. intros H. injection H as ->. now left.
  - intros H. right. now apply IH.
Qed.

Lemma in_map_get store (k : jsstring) (v : list (ModuleInsight Shared)) :
  NoDup (map fst store) -> In (k, v) store -> map_get k store = Some v.
Proof.
  induction store as [|[k' v'] store IH]; simpl; [tauto|].
  intros Hnd [H|H].
  - injection H as -> ->. now rewrite js_eqb_refl.
  - inversion_clear Hnd as [|? ? Hnotin Hnd'].
    destruct (Js.eqb k k') eqn:E.
    + apply js_eqb_eq in E; subst k'. exfalso. apply Hnotin.
      change k with (fst (k, v)). now apply in_map.
    + now apply IH.
Qed.

Lemma map_set_keys store (k : jsstring) (v : list (ModuleInsight Shared)) :
  NoDup (map fst store) -> NoDup (map fst (map_set k v store)).
Proof.
  assert (Hkeys : forall s : JsMap (list (ModuleInsight Shared)),
             forall k', In k' (map fst (map_set k v s)) ->
                        k' = k \/ In k' (map fst s)).
  { induction s as [|[k1 v1] s IHs]; simpl; intros k' H.
    - destruct H as [H|[]]; auto.
    - destruct (Js.eqb k k1); simpl in H; [now right|].
      destruct H as [H|H]; [now right; left|].
      destruct (IHs _ H); auto. }
  induction store as [|[k1 v1] store IH]; simpl; intros Hnd.
  - repeat constructor. simpl. tauto.
  - destruct (Js.eqb k k1) eqn:E; simpl; [exact Hnd|].
    inversion_clear Hnd as [|? ? Hnotin Hnd'].
    constructor; [|now apply IH].
    intros Hin. destruct (Hkeys _ _ Hin) as [->|H]; [|now apply Hnotin].
    now rewrite js_eqb_refl in E.
Qed.

Lemma map_set_forall (P : jsstring * list (ModuleInsight Shared) -> Prop)
    store (k : jsstring) (v : list (ModuleInsight Shared)) :
  Forall P store -> P (k, v) -> Forall P (map_set k v store).
Proof.
  intros Hs Hkv. induction Hs as [|[k1 v1] store H1 Hs IH]; simpl.
  - now repeat constructor.
  - destruct (Js.eqb k k1) eqn:E.
    + apply js_eqb_eq in E; subst k1. now constructor.
    + now constructor.
Qed.

(** The store of a reachable state: no key twice, no empty list, every
    insight under the key of its own module and marked actionable. *)
Lemma reachable_store st :
  reachable st ->
  NoDup (map fst (insights st))
  /\ Forall (fun kv => snd kv <> []
                       /\ Forall (fun i => module i = fst kv
                                           /\ actionable i = true) (snd kv))
       (insights st).
Proof.
  induction 1 as [|st m i r d _ [IH1 IH2]|st _ IH|st _ _|st _ IH];
    try exact IH; try (split; constructor).
  unfold addModuleInsight; simpl. split; [now apply map_set_keys|].
  apply map_set_forall; [exact IH2|]. simpl. split.
  - now destruct (get_or_empty m (insights st)).
  - apply Forall_app. split; [|repeat constructor].
    unfold get_or_empty.
    destruct (map_get m (insights st)) as [v|] eqn:E; [|constructor].
    apply map_get_in in E.
    eapply Forall_forall in IH2; [|exact E]. now destruct IH2.
Qed.

End StoreInvariants.

(** X3: [addModuleInsight] only appends: the list of the insight's module
    gains the new insight at its end, every other module's list is
    unchanged, and [getAllInsights] afterwards holds the insights it held
    before and the new one, nothing else. *)
Theorem add_insight_frame {Shared : Type} (st : Service Shared)
    (m i : jsstring) (r : option Level) (d : option Shared) :
  (forall k,
      getModuleInsights k (addModuleInsight m i r d st)
      = if Js.eqb m k
        then getModuleInsights k st ++ [stored_insight m i r d]
        else getModuleInsights k st)
  /\ Permutation (getAllInsights (addModuleInsight m i r d st))
       (stored_insight m i r d :: getAllInsights st).
Proof.
  split.
  - intros k. unfold getModuleInsights, addModuleInsight; simpl.
    apply get_after_add.
  - unfold getAllInsights, addModuleInsight; simpl.
    apply all_insights_after_add.
Qed.

(** X4: in every reachable state an insight is filed under the key of its
    own module and is marked actionable, and [getAllInsights] holds an
    insight exactly when the list of its module holds it. *)
Theorem insights_filed_by_module {Shared : Type} (st : Service Shared) :
  reachable st ->
  (forall k i, In i (getModuleInsights k st) ->
               module i = k /\ actionable i = true)
  /\ (forall i, In i (getAllInsights st)
                <-> In i (getModuleInsights (module i) st)).
Proof.
  intros Hr. destruct (reachable_store Hr) as [Hnd Hall].
  assert (Hget : forall k i, In i (getModuleInsights k st) ->
                   exists v, In (k, v) (insights st) /\ In i v).
  { intros k i. unfold getModuleInsights, get_or_empty.
    destruct (map_get k (insights st)) as [v|] eqn:E; [|intros []].
    intros Hi. exists v. split; [now apply map_get_in|exact Hi]. }
  split.
  - intros k i Hi. destruct (Hget _ _ Hi) as (v & Hkv & Hv).
    eapply Forall_forall in Hall; [|exact Hkv]. destruct Hall as [_ Hall].
    eapply Forall_forall in Hall; [|exact Hv]. exact Hall.
  - intros i. unfold getAllInsights, map_values. split.
    + intros Hi. apply in_concat in Hi as (v & Hv & Hi).
      apply in_map_iff in Hv as ([k v'] & Hsnd & Hkv). simpl in Hsnd.
      subst v'.
      pose proof Hall as Hall'.
      eapply Forall_forall in Hall'; [|exact Hkv]. destruct Hall' as [_ Hm].
      eapply Forall_forall in Hm; [|exact Hi]. destruct Hm as [Hm _].
      simpl in Hm. unfold getModuleInsights, get_or_empty.
      rewrite Hm. now rewrite (in_map_get _ _ _ Hnd Hkv).
    + intros Hi. destruct (Hget _ _ Hi) as (v & Hkv & Hv).
      apply in_concat. exists v. split; [|exact Hv].
      apply in_map_iff. now exists (module i, v).
Qed.

Lemma insights_filed_by_module_witness :
  reachable two_insights
  /\ (forall i, In i (getAllInsights two_insights)
                <-> In i (getModuleInsights (module i) two_insights)).
Proof.
  assert (H : reachable two_insights) by (repeat constructor).
  split; [exact H|]. exact (proj2 (insights_filed_by_module H)).
Defined.

Section GrowthFacts.

Context {Shared : Type}.
Implicit Types (store : JsMap (list (ModuleInsight Shared))).
Implicit Types (st : Service Shared).
Implicit Types (v c : list (ModuleInsight Shared)).

(** [l'] is [l], or [l] with one more element at its end. *)
Lemma existsb_grows (p : ModuleInsight Shared -> bool) l l' :
  (l' = l \/ exists x, l' = l ++ [x]) ->
  existsb p l = true -> existsb p l' = true.
Proof.
  intros [->|[x ->]] H; [exact H|].
  rewrite existsb_app, H. reflexivity.
Qed.

Lemma filter_grows (p : ModuleInsight Shared -> bool) l l' :
  (l' = l \/ exists x, l' = l ++ [x]) ->
  List.length (filter p l) <= List.length (filter p l').
Proof.
  intros [->|[x ->]]; [lia|].
  rewrite filter_app, length_app. lia.
Qed.

Lemma balance_fires v c :
  found (findVisualCastingBalance v c)
  = existsb is_warm v && existsb is_serious c.
Proof.
  unfold findVisualCastingBalance. rewrite <- !found_find.
  now destruct (find is_warm v), (find is_serious c).
Qed.

Lemma alignment_fires v c :
  found (findCastingVisualAlignment v c)
  = (2 <=? List.length (filter is_thematic c)
           + List.length (filter is_thematic v)).
Proof.
  unfold findCastingVisualAlignment. rewrite length_app.
  now destruct (2 <=? _).
Qed.

Lemma balance_grows v v' c c' :
  (v' = v \/ exists x, v' = v ++ [x]) ->
  (c' = c \/ exists x, c' = c ++ [x]) ->
  forall f, findVisualCastingBalance v c = Some f ->
            findVisualCastingBalance v' c' = Some f.
Proof.
  intros Hv Hc f H.
  pose proof (balance_fires v c) as F. rewrite H in F. simpl in F.
  symmetry in F. apply andb_true_iff in F as [F1 F2].
  pose proof (balance_fires v' c') as F'.
  rewrite (existsb_grows _ Hv F1), (existsb_grows _ Hc F2) in F'.
  unfold findVisualCastingBalance in *.
  destruct (find is_warm v), (find is_serious c); try discriminate.
  destruct (find is_warm v'), (find is_serious c'); try discriminate.
  exact H.
Qed.

Lemma alignment_grows v v' c c' :
  (v' = v \/ exists x, v' = v ++ [x]) ->
  (c' = c \/ exists x, c' = c ++ [x]) ->
  forall f, findCastingVisualAlignment v c = Some f ->
            findCastingVisualAlignment v' c' = Some f.
Proof.
  intros Hv Hc f H.
  pose proof (alignment_fires v c) as F. rewrite H in F. cbn [found] in F.
  symmetry in F. apply Nat.leb_le in F.
  pose proof (filter_grows is_thematic Hv).
  pose proof (filter_grows is_thematic Hc).
  unfold findCastingVisualAlignment in *. rewrite length_app in *.
  destruct (2 <=? List.length (filter is_thematic c)
                  + List.length (filter is_thematic v)); [|discriminate].
  destruct (Nat.leb_spec 2 (List.length (filter is_thematic c')
                            + List.length (filter is_thematic v')));
    [exact H|lia].
Qed.

Lemma get_grows store (m k : jsstring) (x : ModuleInsight Shared) :
  get_or_empty k (map_set m (get_or_empty m store ++ [x]) store)
  = get_or_empty k store
  \/ exists y,
       get_or_empty k (map_set m (get_or_empty m store ++ [x]) store)
       = get_or_empty k store ++ [y].
Proof.
  rewrite get_after_add. destruct (Js.eqb m k); [right; now exists x|now left].
Qed.

(** In the analysis the high-priority suggestions are the alignment
    finding, and nothing has low priority. *)
Lemma analysis_counts store :
  count (has_priority high) (analysis store)
  = (if found (findCastingVisualAlignment
                 (get_or_empty (lit "visual") store)
                 (get_or_empty (lit "casting") store))
     then 1 else 0)%Z
  /\ count (has_priority low) (analysis store) = 0%Z.
Proof.
  unfold analysis, findVisualCastingBalance, findCastingVisualAlignment.
  generalize (get_or_empty (lit "casting") store) as c.
  generalize (get_or_empty (lit "visual") store) as v. intros v c.
  destruct (find is_warm v), (find is_serious c),
    (2 <=? List.length (filter is_thematic c ++ filter is_thematic v));
    split; reflexivity.
Qed.

Lemma analysis_grows store (m : jsstring) (x : ModuleInsight Shared) :
  (forall s, In s (analysis store) ->
             In s (analysis (map_set m (get_or_empty m store ++ [x]) store)))
  /\ (count (has_priority high) (analysis store)
      <= count (has_priority high)
           (analysis (map_set m (get_or_empty m store ++ [x]) store)))%Z.
Proof.
  set (store' := map_set m (get_or_empty m store ++ [x]) store).
  pose proof (get_grows store m (lit "visual") x) as Hv.
  pose proof (get_grows store m (lit "casting") x) as Hc.
  fold store' in Hv, Hc. split.
  - intros s Hs. unfold analysis, push_if in *.
    destruct (findVisualCastingBalance (get_or_empty (lit "visual") store)
                (get_or_empty (lit "casting") store)) as [b|] eqn:B;
      destruct (findCastingVisualAlignment
                  (get_or_empty (lit "visual") store)
                  (get_or_empty (lit "casting") store)) as [e|] eqn:E;
      try rewrite (balance_grows Hv Hc B);
      try rewrite (alignment_grows Hv Hc E);
      simpl in Hs |- *;
      repeat match goal with
             | |- context [match ?X with Some _ => _ | None => _ end] =>
                 destruct X
             end;
      simpl; intuition.
  - rewrite (proj1 (analysis_counts store)), (proj1 (analysis_counts store')).
    destruct (findCastingVisualAlignment (get_or_empty (lit "visual") store)
                (get_or_empty (lit "casting") store)) as [e|] eqn:E.
    + rewrite (alignment_grows Hv Hc E). simpl. lia.
    + simpl. destruct (found _); lia.
Qed.

Lemma stored_counts st (p : Level) :
  reachable st ->
  count (has_priority p) (crossModuleSuggestions st)
  = count (has_priority p) (analysis (insights st)).
Proof.
  intros Hr. destruct (reachable_fresh Hr) as [->| ->];
    [reflexivity|apply count_sorted].
Qed.

Lemma relevance_grows st (m i : jsstring) (r : option Level)
    (d : option Shared) :
  (count (has_relevance high) (getAllInsights st)
   <= count (has_relevance high)
        (getAllInsights (addModuleInsight m i r d st)))%Z.
Proof.
  assert (P : Permutation (getAllInsights (addModuleInsight m i r d st))
                (stored_insight m i r d :: getAllInsights st))
    by apply all_insights_after_add.
  unfold count. rewrite (filter_length_perm (has_relevance high) P).
  simpl. destruct (has_relevance high _); simpl; lia.
Qed.

End GrowthFacts.

(** X5: in a reachable state [addModuleInsight] never retracts a
    suggestion and never lowers the coherence score: every suggestion
    stored before the call is stored after it, and the score reported
    after it is at least the score reported before. *)
Theorem add_insight_never_retracts {Shared : Type} (st : Service Shared)
    (m i : jsstring) (r : option Level) (d : option Shared) :
  reachable st ->
  (forall s, In s (crossModuleSuggestions st) ->
             In s (crossModuleSuggestions (addModuleInsight m i r d st)))
  /\ (score (fst (analyzeProjectCoherence st))
      <= score (fst (analyzeProjectCoherence (addModuleInsight m i r d st))))%Z.
Proof.
  intros Hr.
  destruct (analysis_grows (insights st) m (stored_insight m i r d))
    as [Hin Hhigh].
  split.
  - intros s Hs. unfold addModuleInsight; simpl. apply Hin.
    destruct (reachable_fresh Hr) as [E|E]; rewrite E in Hs; [exact Hs|].
    eapply Permutation_in; [apply array_sort_perm|exact Hs].
  - rewrite !score_unfold.
    rewrite !(stored_counts _ Hr).
    rewrite !(stored_counts _ (reach_add m i r d Hr)).
    rewrite !(proj2 (analysis_counts _)).
    pose proof (relevance_grows st m i r d) as Hrel.
    change (crossModuleSuggestions (addModuleInsight m i r d st))
      with (analysis (insights (addModuleInsight m i r d st))).
    rewrite (proj2 (analysis_counts _)).
    change (insights (addModuleInsight m i r d st))
      with (map_set m
              (get_or_empty m (insights st) ++ [stored_insight m i r d])
              (insights st)).
    lia.
Qed.

Lemma add_insight_never_retracts_witness :
  reachable two_insights
  /\ (score (fst (analyzeProjectCoherence two_insights))
      <= score (fst (analyzeProjectCoherence
                       (addModuleInsight (lit "visual") (lit "golden hour")
                          (Some high) None two_insights))))%Z.
Proof.
  assert (H : reachable two_insights) by (repeat constructor).
  split; [exact H|].
  exact (proj2 (add_insight_never_retracts (lit "visual") (lit "golden hour")
                  (Some high) None H)).
Defined.

Section ReportFacts.

Context {Shared : Type}.
Implicit Types (st : Service Shared).

Lemma report_unfold st :
  weaknesses (fst (analyzeProjectCoherence st))
  = (let ranked := array_sort by_priority (crossModuleSuggestions st) in
     let w1 := if List.length ranked =? 0
               then [lit "Limited cross-module interaction detected"]
               else [] in
     if (2 <? count (has_priority high) ranked)%Z
     then w1 ++ [lit "Multiple high-priority improvements suggested"]
     else w1)
  /\ recommendations (fst (analyzeProjectCoherence st))
     = map suggestion
         (firstn 3 (array_sort by_priority (crossModuleSuggestions st))).
Proof. split; reflexivity. Qed.

Lemma ranked_stored st :
  reachable st ->
  array_sort by_priority (crossModuleSuggestions st)
  = array_sort by_priority (analysis (insights st)).
Proof.
  intros Hr. destruct (reachable_fresh Hr) as [->| ->];
    [reflexivity|apply array_sort_idem].
Qed.

End ReportFacts.

(** X6: the report of a reachable state. Its weaknesses are the single
    line about limited interaction when the analysis of the store yields
    no suggestion, and empty otherwise; the line about multiple
    high-priority improvements is never in it; its recommendations are
    the texts of all suggestions of the analysis, in ranked order, at
    most two. *)
Theorem coherence_report_of_reachable_state {Shared : Type}
    (st : Service Shared) :
  reachable st ->
  weaknesses (fst (analyzeProjectCoherence st))
  = (if List.length (analysis (insights st)) =? 0
     then [lit "Limited cross-module interaction detected"] else [])
  /\ ~ In (lit "Multiple high-priority improvements suggested")
          (weaknesses (fst (analyzeProjectCoherence st)))
  /\ recommendations (fst (analyzeProjectCoherence st))
     = map suggestion (array_sort by_priority (analysis (insights st)))
  /\ List.length (recommendations (fst (analyzeProjectCoherence st))) <= 2.
Proof.
  intros Hr. destruct (report_unfold st) as [Hw Hrec].
  rewrite (ranked_stored Hr) in Hw, Hrec. cbv zeta in Hw.
  pose proof (array_sort_perm by_priority (analysis (insights st))) as P.
  pose proof (Permutation_length P) as Hlen.
  destruct (analysis_shape (insights st)) as [Hshape _].
  assert (Hhigh : (2 <? count (has_priority high)
                          (array_sort by_priority (analysis (insights st))))%Z
                  = false).
  { rewrite count_sorted, (proj1 (analysis_counts _)).
    destruct (found _); reflexivity. }
  rewrite Hhigh, Hlen in Hw.
  assert (Hall : firstn 3 (array_sort by_priority (analysis (insights st)))
                 = array_sort by_priority (analysis (insights st)))
    by (apply firstn_all2; lia).
  rewrite Hall in Hrec.
  split; [exact Hw|]. split.
  - rewrite Hw. destruct (List.length (analysis (insights st)) =? 0);
      simpl; [|tauto].
    intros [H|[]]. discriminate H.
  - split; [exact Hrec|]. rewrite Hrec, length_map. lia.
Qed.

Lemma coherence_report_of_reachable_state_witness :
  reachable two_insights
  /\ weaknesses (fst (analyzeProjectCoherence two_insights)) = []
  /\ recommendations (fst (analyzeProjectCoherence two_insights))
     = map suggestion
         (array_sort by_priority (analysis (insights two_insights))).
Proof.
  assert (H : reachable two_insights) by (repeat constructor).
  destruct (coherence_report_of_reachable_state H) as (Hw & _ & Hrec & _).
  split; [exact H|]. split; [exact Hw|exact Hrec].
Defined.

(** X7: an insight filed under any module other than casting and visual
    is stored and counted but never read by the rules: after the call
    the suggestion list is the analysis of the store as it was before. *)
Theorem foreign_module_is_not_analysed {Shared : Type} (st : Service Shared)
    (m i : jsstring) (r : option Level) (d : option Shared) :
  Js.eqb m (lit "casting") = false -> Js.eqb m (lit "visual") = false ->
  crossModuleSuggestions (addModuleInsight m i r d st)
  = analysis (insights st)
  /\ In (stored_insight m i r d)
        (getAllInsights (addModuleInsight m i r d st)).
Proof.
  intros Hc Hv. split.
  - unfold addModuleInsight; simpl.
    apply analysis_perm; rewrite get_after_add;
      [rewrite Hc|rewrite Hv]; reflexivity.
  - eapply Permutation_in.
    + symmetry.
      exact (all_insights_after_add (insights st) m (stored_insight m i r d)).
    + now left.
Qed.

Lemma foreign_module_is_not_analysed_witness :
  Js.eqb (lit "sound") (lit "casting") = false
  /\ Js.eqb (lit "sound") (lit "visual") = false
  /\ crossModuleSuggestions
       (addModuleInsight (lit "sound") (lit "a serious theme") None None
          two_insights)
     = analysis (insights two_insights).
Proof.
  split; [reflexivity|]. split; [reflexivity|].
  exact (proj1 (@foreign_module_is_not_analysed unit two_insights
                  (lit "sound") (lit "a serious theme") None None
                  eq_refl eq_refl)).
Defined.

(** X8: the alignment rule counts thematic insights over both lists
    together. Two casting insights whose texts contain theme or emotion,
    added to the empty service, give an enhance suggestion of priority
    high for the modules visual and casting, and no other suggestion,
    while the visual list is empty. *)
Theorem enhance_from_casting_alone {Shared : Type} (t1 t2 : jsstring)
    (r1 r2 : option Level) (d1 d2 : option Shared) :
  text_is_thematic t1 = true -> text_is_thematic t2 = true ->
  getModuleInsights (lit "visual")
    (addModuleInsight (lit "casting") t2 r2 d2
       (addModuleInsight (lit "casting") t1 r1 d1 new_service)) = []
  /\ exists e,
       crossModuleSuggestions
         (addModuleInsight (lit "casting") t2 r2 d2
            (addModuleInsight (lit "casting") t1 r1 d1 new_service)) = [e]
       /\ type e = enhance /\ priority e = high
       /\ modules e = [lit "visual"; lit "casting"].
Proof.
  intros H1 H2. split; [reflexivity|].
  unfold addModuleInsight, analyzeCrossModuleSynergies, analysis,
    get_or_empty. simpl map_get. simpl map_set. simpl map_get.
  cbv beta iota zeta. unfold findVisualCastingBalance.
  simpl find. cbv beta iota.
  unfold findCastingVisualAlignment. simpl filter.
  unfold is_thematic. simpl insight.
  unfold text_is_thematic in H1, H2. rewrite H1, H2. simpl.
  eexists. repeat split.
Qed.

Lemma enhance_from_casting_alone_witness :
  text_is_thematic (lit "theme of loss") = true
  /\ text_is_thematic (lit "raw emotion") = true
  /\ exists e,
       crossModuleSuggestions
         (addModuleInsight (lit "casting") (lit "raw emotion") None None
            (addModuleInsight (lit "casting") (lit "theme of loss") None None
               (@new_service unit))) = [e]
       /\ type e = enhance /\ priority e = high
       /\ modules e = [lit "visual"; lit "casting"].
Proof.
  split; [reflexivity|]. split; [reflexivity|].
  exact (proj2 (@enhance_from_casting_alone unit (lit "theme of loss")
                  (lit "raw emotion") None None None None eq_refl eq_refl)).
Defined.

(** * Properties of the sound and visual service *)

Section SoundFacts.

Context {Shared : Type}.
Implicit Types (store : JsMap (list (ModuleInsight Shared))).
Implicit Types (st : Service Shared).
Implicit Types (s v : list (ModuleInsight Shared)).

Lemma sync_fires s v :
  SoundCollab.findSoundVisualSync s v
  = if existsb SoundCollab.is_sound_mood s
       && existsb SoundCollab.is_visual_mood v
    then Some SoundCollab.mood_sync
    else if existsb SoundCollab.is_sound_energy s
            && existsb SoundCollab.is_visual_energy v
         then Some SoundCollab.energy_sync
         else None.
Proof.
  unfold SoundCollab.findSoundVisualSync. now rewrite !found_find.
Qed.

Lemma sync_perm s s' v v' :
  Permutation s s' -> Permutation v v' ->
  SoundCollab.findSoundVisualSync s v = SoundCollab.findSoundVisualSync s' v'.
Proof.
  intros Hs Hv. unfold SoundCollab.findSoundVisualSync.
  now rewrite (found_perm SoundCollab.is_sound_mood Hs),
    (found_perm SoundCollab.is_visual_mood Hv),
    (found_perm SoundCollab.is_sound_energy Hs),
    (found_perm SoundCollab.is_visual_energy Hv).
Qed.

Lemma enhancement_perm s s' v v' :
  Permutation s s' -> Permutation v v' ->
  SoundCollab.findSoundVisualEnhancement s v
  = SoundCollab.findSoundVisualEnhancement s' v'.
Proof.
  intros Hs Hv. unfold SoundCollab.findSoundVisualEnhancement.
  rewrite !length_app.
  now rewrite (filter_length_perm is_thematic Hs),
              (filter_length_perm is_thematic Hv).
Qed.

Lemma sound_analysis_perm store store' :
  Permutation (get_or_empty (lit "sound") store)
              (get_or_empty (lit "sound") store') ->
  Permutation (get_or_empty (lit "visual") store)
              (get_or_empty (lit "visual") store') ->
  SoundCollab.analysis store = SoundCollab.analysis store'.
Proof.
  intros Hs Hv. unfold SoundCollab.analysis.
  now rewrite (sync_perm Hs Hv), (enhancement_perm Hs Hv).
Qed.

(** What the analysis of the sound service can be: the sync finding, if
    there is one, then the enhance finding, if there is one. *)
Lemma sound_analysis_cases store :
  exists rest,
    SoundCollab.analysis store
    = match SoundCollab.findSoundVisualSync
              (get_or_empty (lit "sound") store)
              (get_or_empty (lit "visual") store) with
      | Some f => SoundCollab.spread sync f :: rest
      | None => rest
      end
    /\ List.length rest <= 1
    /\ Forall (fun e => type e = enhance /\ priority e = high) rest.
Proof.
  unfold SoundCollab.analysis, SoundCollab.findSoundVisualEnhancement.
  destruct (SoundCollab.findSoundVisualSync _ _) as [f|];
    destruct (2 <=? _); simpl; eexists; repeat split;
    repeat constructor.
Qed.

Lemma sound_analysis_high store :
  List.length (SoundCollab.analysis store) <= 2
  /\ Forall (fun x => priority x = high
                      /\ (type x = sync \/ type x = enhance))
       (SoundCollab.analysis store).
Proof.
  destruct (sound_analysis_cases store) as (rest & -> & Hlen & Hrest).
  assert (Hr : Forall (fun x => priority x = high
                                /\ (type x = sync \/ type x = enhance)) rest).
  { eapply Forall_impl; [|exact Hrest]. intros x [-> ->]. auto. }
  rewrite sync_fires.
  destruct (existsb _ _ && existsb _ _);
    [|destruct (existsb _ _ && existsb _ _)];
    simpl; (split; [lia|]); auto; constructor; auto.
Qed.

Lemma all_high_fixed (l : list CrossModuleSuggestion) :
  Forall (fun x => priority x = high) l -> array_sort by_priority l = l.
Proof. intros H. eapply sorted_fixed, same_priority_sorted, H. Qed.

Lemma all_high_counts (l : list CrossModuleSuggestion) :
  Forall (fun x => priority x = high) l ->
  count (has_priority high) l = Z.of_nat (List.length l)
  /\ count (has_priority low) l = 0%Z.
Proof.
  unfold count. induction 1 as [|x l Hx _ [IH1 IH2]]; [split; reflexivity|].
  cbn [filter].
  replace (has_priority high x) with true
    by (unfold has_priority; now rewrite Hx).
  replace (has_priority low x) with false
    by (unfold has_priority; now rewrite Hx).
  cbn [List.length]. split; [lia|exact IH2].
Qed.

Lemma sound_analysis_all_high store :
  Forall (fun x => priority x = high) (SoundCollab.analysis store).
Proof.
  eapply Forall_impl; [|apply sound_analysis_high]. now intros x [H _].
Qed.

(** In the sound service the stored list is always the analysis itself:
    all its suggestions have one priority, so ranking moves nothing. *)
Lemma sound_reachable_fresh st :
  SoundCollab.reachable st ->
  crossModuleSuggestions st = SoundCollab.analysis (insights st).
Proof.
  induction 1 as [|st m i r d _ _|st _ IH|st _ _|st _ IH]; simpl;
    try reflexivity;
    rewrite IH; apply all_high_fixed, sound_analysis_all_high.
Qed.

End SoundFacts.

(** C4: in the sound and visual service, after the sound insight and the
    visual insight of the sample scenario the suggestion list, as it is
    stored and as [getCrossModuleSuggestions] returns it, contains a
    suggestion of type sync with priority high, whatever the state
    before; from the empty service it is the only suggestion, for the
    modules sound and visual. *)
Theorem sound_visual_scenario_sync {Shared : Type} :
  (forall (st : Service Shared) r1 r2 d1 d2,
      exists s,
        type s = sync /\ priority s = high
        /\ In s (crossModuleSuggestions
                   (SoundCollab.sound_visual_scenario r1 r2 d1 d2 st))
        /\ In s (fst (getCrossModuleSuggestions
                        (SoundCollab.sound_visual_scenario r1 r2 d1 d2 st))))
  /\ (forall r1 r2 (d1 d2 : option Shared),
        map (fun s => (type s, priority s, modules s))
          (fst (getCrossModuleSuggestions
                  (SoundCollab.sound_visual_scenario r1 r2 d1 d2
                     new_service)))
        = [(sync, high, [lit "sound"; lit "visual"])]).
Proof.
  split; [|reflexivity].
  intros st r1 r2 d1 d2.
  exists (SoundCollab.spread sync SoundCollab.mood_sync).
  assert (Hin : In (SoundCollab.spread sync SoundCollab.mood_sync)
                  (crossModuleSuggestions
                     (SoundCollab.sound_visual_scenario r1 r2 d1 d2 st))).
  { unfold SoundCollab.sound_visual_scenario, SoundCollab.addModuleInsight,
      SoundCollab.analyzeCrossModuleSynergies.
    cbn [crossModuleSuggestions insights].
    match goal with
    | |- In _ (SoundCollab.analysis ?store) =>
        destruct (sound_analysis_cases store) as (rest & -> & _)
    end.
    rewrite sync_fires, !get_after_add. simpl Js.eqb. cbv iota.
    rewrite !existsb_app. cbn [existsb].
    replace (SoundCollab.is_sound_mood
               (stored_insight (lit "sound") (lit "mood: tense atmosphere")
                  r1 d1)) with true by reflexivity.
    replace (SoundCollab.is_visual_mood
               (stored_insight (lit "visual")
                  (lit "dramatic lighting and color palette") r2 d2))
      with true by reflexivity.
    rewrite !orb_true_r. now left. }
  repeat split; [exact Hin|].
  eapply Permutation_in; [|exact Hin].
  apply Permutation_sym, array_sort_perm.
Qed.

(** X9: in the sound service, once the sound list holds an insight whose
    text contains mood or atmosphere and the visual list one whose text
    contains lighting or color, the suggestion list starts with a sync
    suggestion of priority high for the modules sound and visual; this
    holds from any state and for either order of the two calls. *)
Theorem sound_visual_sync {Shared : Type} (st : Service Shared)
    (ts tv : jsstring) (rs rv : option Level) (ds dv : option Shared) :
  SoundCollab.text_is_sound_mood ts = true ->
  SoundCollab.text_is_visual_mood tv = true ->
  exists rest rest',
    crossModuleSuggestions
      (SoundCollab.addModuleInsight (lit "visual") tv rv dv
         (SoundCollab.addModuleInsight (lit "sound") ts rs ds st))
    = SoundCollab.spread sync SoundCollab.mood_sync :: rest
    /\ crossModuleSuggestions
         (SoundCollab.addModuleInsight (lit "sound") ts rs ds
            (SoundCollab.addModuleInsight (lit "visual") tv rv dv st))
       = SoundCollab.spread sync SoundCollab.mood_sync :: rest'
    /\ type (SoundCollab.spread sync SoundCollab.mood_sync) = sync
    /\ priority (SoundCollab.spread sync SoundCollab.mood_sync) = high
    /\ modules (SoundCollab.spread sync SoundCollab.mood_sync)
       = [lit "sound"; lit "visual"].
Proof.
  intros Hs Hv.
  assert (Hhead : forall store : JsMap (list (ModuleInsight Shared)),
             existsb SoundCollab.is_sound_mood
               (get_or_empty (lit "sound") store) = true ->
             existsb SoundCollab.is_visual_mood
               (get_or_empty (lit "visual") store) = true ->
             exists rest,
               SoundCollab.analysis store
               = SoundCollab.spread sync SoundCollab.mood_sync :: rest).
  { intros store H1 H2.
    destruct (sound_analysis_cases store) as (rest & E & _).
    rewrite sync_fires, H1, H2 in E. simpl in E. now exists rest. }
  assert (Hsound : forall l : list (ModuleInsight Shared),
             existsb SoundCollab.is_sound_mood
               (l ++ [stored_insight (lit "sound") ts rs ds]) = true).
  { intros l. rewrite existsb_app. simpl.
    unfold SoundCollab.is_sound_mood at 2. simpl insight.
    unfold SoundCollab.text_is_sound_mood in Hs. rewrite Hs.
    apply orb_true_r. }
  assert (Hvisual : forall l : list (ModuleInsight Shared),
             existsb SoundCollab.is_visual_mood
               (l ++ [stored_insight (lit "visual") tv rv dv]) = true).
  { intros l. rewrite existsb_app. simpl.
    unfold SoundCollab.is_visual_mood at 2. simpl insight.
    unfold SoundCollab.text_is_visual_mood in Hv. rewrite Hv.
    apply orb_true_r. }
  destruct (Hhead
              (insights
                 (SoundCollab.addModuleInsight (lit "visual") tv rv dv
                    (SoundCollab.addModuleInsight (lit "sound") ts rs ds st))))
    as [rest E].
  { unfold SoundCollab.addModuleInsight; simpl insights.
    rewrite !get_after_add. simpl Js.eqb. cbv iota. apply Hsound. }
  { unfold SoundCollab.addModuleInsight; simpl insights.
    rewrite !get_after_add. simpl Js.eqb. cbv iota. apply Hvisual. }
  destruct (Hhead
              (insights
                 (SoundCollab.addModuleInsight (lit "sound") ts rs ds
                    (SoundCollab.addModuleInsight (lit "visual") tv rv dv st))))
    as [rest' E'].
  { unfold SoundCollab.addModuleInsight; simpl insights.
    rewrite !get_after_add. simpl Js.eqb. cbv iota. apply Hsound. }
  { unfold SoundCollab.addModuleInsight; simpl insights.
    rewrite !get_after_add. simpl Js.eqb. cbv iota. apply Hvisual. }
  exists rest, rest'. repeat split; assumption.
Qed.

Lemma sound_visual_sync_witness :
  SoundCollab.text_is_sound_mood (lit "mood: tense atmosphere") = true
  /\ SoundCollab.text_is_visual_mood
       (lit "dramatic lighting and color palette") = true
  /\ exists rest,
       crossModuleSuggestions
         (SoundCollab.addModuleInsight (lit "visual")
            (lit "dramatic lighting and color palette") None None
            (SoundCollab.addModuleInsight (lit "sound")
               (lit "mood: tense atmosphere") None None (@new_service unit)))
       = SoundCollab.spread sync SoundCollab.mood_sync :: rest.
Proof.
  split; [reflexivity|]. split; [reflexivity|].
  destruct (@sound_visual_sync unit new_service
              (lit "mood: tense atmosphere")
              (lit "dramatic lighting and color palette")
              None None None None eq_refl eq_refl)
    as (rest & _ & E & _).
  now exists rest.
Defined.

(** X10: in every reachable state of the sound service the stored list is
    the analysis of the store itself and ranking leaves it as it is; it
    has at most two suggestions, each of priority high and of type sync or
    enhance; and the coherence score is 50 plus 10 per high-relevance
    insight plus 5 per suggestion, capped at 100. *)
Theorem sound_service_state {Shared : Type} (st : Service Shared) :
  SoundCollab.reachable st ->
  crossModuleSuggestions st = SoundCollab.analysis (insights st)
  /\ fst (getCrossModuleSuggestions st) = crossModuleSuggestions st
  /\ List.length (crossModuleSuggestions st) <= 2
  /\ Forall (fun x => priority x = high
                      /\ (type x = sync \/ type x = enhance))
       (crossModuleSuggestions st)
  /\ score (fst (analyzeProjectCoherence st))
     = Z.min 100
         (50 + 10 * count (has_relevance high) (getAllInsights st)
          + 5 * Z.of_nat (List.length (crossModuleSuggestions st)))%Z.
Proof.
  intros Hr. pose proof (sound_reachable_fresh Hr) as E.
  pose proof (sound_analysis_all_high (insights st)) as Hhigh.
  destruct (sound_analysis_high (insights st)) as [Hlen Hall].
  rewrite <- E in Hhigh, Hlen, Hall.
  split; [exact E|]. split; [simpl; now apply all_high_fixed|].
  split; [exact Hlen|]. split; [exact Hall|].
  rewrite score_unfold.
  destruct (all_high_counts Hhigh) as [-> ->].
  pose proof (count_nonneg (has_relevance high) (getAllInsights st)).
  lia.
Qed.

Lemma sound_service_state_witness :
  SoundCollab.reachable
    (SoundCollab.addModuleInsight (lit "sound") (lit "mood: tense atmosphere")
       (Some high) None (@new_service unit))
  /\ score
       (fst (analyzeProjectCoherence
               (SoundCollab.addModuleInsight (lit "sound")
                  (lit "mood: tense atmosphere") (Some high) None
                  (@new_service unit))))
     = Z.min 100
         (50 + 10 * count (has_relevance high)
                      (getAllInsights
                         (SoundCollab.addModuleInsight (lit "sound")
                            (lit "mood: tense atmosphere") (Some high) None
                            (@new_service unit)))
          + 5 * Z.of_nat
                  (List.length
                     (crossModuleSuggestions
                        (SoundCollab.addModuleInsight (lit "sound")
                           (lit "mood: tense atmosphere") (Some high) None
                           (@new_service unit)))))%Z.
Proof.
  assert (H : SoundCollab.reachable
                (SoundCollab.addModuleInsight (lit "sound")
                   (lit "mood: tense atmosphere") (Some high) None
                   (@new_service unit)))
    by (repeat constructor).
  split; [exact H|].
  exact (proj2 (proj2 (proj2 (proj2 (sound_service_state H))))).
Defined.

(** X11: the sound service never holds two sync suggestions, and the mood
    rule goes first: the analysis holds the mood suggestion exactly when
    some sound insight mentions mood or atmosphere and some visual insight
    mentions lighting or color, and it holds the energy suggestion exactly
    when there is no such pair but a sound insight mentions energy or
    intensity and a visual insight mentions movement or camera. *)
Theorem sync_rule_precedence {Shared : Type}
    (store : JsMap (list (ModuleInsight Shared))) :
  (In (SoundCollab.spread sync SoundCollab.mood_sync)
      (SoundCollab.analysis store)
   <-> existsb SoundCollab.is_sound_mood (get_or_empty (lit "sound") store)
       && existsb SoundCollab.is_visual_mood
            (get_or_empty (lit "visual") store) = true)
  /\ (In (SoundCollab.spread sync SoundCollab.energy_sync)
         (SoundCollab.analysis store)
      <-> existsb SoundCollab.is_sound_mood (get_or_empty (lit "sound") store)
          && existsb SoundCollab.is_visual_mood
               (get_or_empty (lit "visual") store) = false
          /\ existsb SoundCollab.is_sound_energy
               (get_or_empty (lit "sound") store)
             && existsb SoundCollab.is_visual_energy
                  (get_or_empty (lit "visual") store) = true)
  /\ List.length
       (filter (fun x => match type x with sync => true | _ => false end)
          (SoundCollab.analysis store)) <= 1.
Proof.
  destruct (sound_analysis_cases store) as (rest & -> & Hlen & Hrest).
  rewrite sync_fires.
  assert (Hno : forall f, ~ In (SoundCollab.spread sync f) rest).
  { intros f Hin. eapply Forall_forall in Hrest; [|exact Hin].
    destruct Hrest as [H _]. discriminate H. }
  assert (Hfilter :
            filter (fun x => match type x with sync => true | _ => false end)
              rest = []).
  { clear Hlen Hno. induction Hrest as [|x l [Hx _] _ IH]; [reflexivity|].
    simpl. now rewrite Hx. }
  assert (Hdiff : SoundCollab.spread sync SoundCollab.mood_sync
                  <> SoundCollab.spread sync SoundCollab.energy_sync).
  { intros H. apply (f_equal suggestion) in H. vm_compute in H.
    discriminate H. }
  destruct (existsb SoundCollab.is_sound_mood _
            && existsb SoundCollab.is_visual_mood _);
    [|destruct (existsb SoundCollab.is_sound_energy _
               && existsb SoundCollab.is_visual_energy _)];
    cbn [filter type SoundCollab.spread]; rewrite ?Hfilter.
  - split; [split; [reflexivity|intros _; now left]|].
    split; [|simpl; lia].
    split; [|intros [H _]; discriminate H].
    intros [H|H]; [now apply Hdiff in H|now apply Hno in H].
  - split; [split; [|intros H; discriminate H]|].
    + intros [H|H]; [symmetry in H; now apply Hdiff in H|now apply Hno in H].
    + split; [|simpl; lia].
      split; [intros _; split; reflexivity|intros _; now left].
  - split; [split; [|intros H; discriminate H]|].
    + intros H; now apply Hno in H.
    + split; [|simpl; lia].
      split; [|intros [_ H]; discriminate H].
      intros H; now apply Hno in H.
Qed.

Lemma sync_rule_precedence_witness :
  In (SoundCollab.spread sync SoundCollab.mood_sync)
     (SoundCollab.analysis
        (insights
           (SoundCollab.addModuleInsight (lit "visual")
              (lit "camera and lighting") None None
              (SoundCollab.addModuleInsight (lit "sound")
                 (lit "mood and energy") None None (@new_service unit)))))
  /\ ~ In (SoundCollab.spread sync SoundCollab.energy_sync)
         (SoundCollab.analysis
            (insights
               (SoundCollab.addModuleInsight (lit "visual")
                  (lit "camera and lighting") None None
                  (SoundCollab.addModuleInsight (lit "sound")
                     (lit "mood and energy") None None
                     (@new_service unit))))).
Proof.
  destruct (@sync_rule_precedence unit
              (insights
                 (SoundCollab.addModuleInsight (lit "visual")
                    (lit "camera and lighting") None None
                    (SoundCollab.addModuleInsight (lit "sound")
                       (lit "mood and energy") None None
                       (@new_service unit))))) as (Hmood & Henergy & _).
  split.
  - apply Hmood. reflexivity.
  - intros H. apply Henergy in H. destruct H as [H _].
    vm_compute in H. discriminate H.
Defined.

(** X12: the suggestions of the sound service do not depend on the order
    of the insights: two calls in either order leave the same list, and
    two stores whose sound and visual lists hold the same insights, in
    whatever order, have the same analysis. *)
Theorem sound_suggestions_order_independent {Shared : Type} :
  (forall (st : Service Shared) mA iA rA dA mB iB rB dB,
      crossModuleSuggestions
        (SoundCollab.addModuleInsight mB iB rB dB
           (SoundCollab.addModuleInsight mA iA rA dA st))
      = crossModuleSuggestions
          (SoundCollab.addModuleInsight mA iA rA dA
             (SoundCollab.addModuleInsight mB iB rB dB st)))
  /\ (forall st1 st2 : Service Shared,
        (forall k, Permutation (getModuleInsights k st1)
                               (getModuleInsights k st2)) ->
        crossModuleSuggestions (SoundCollab.analyzeCrossModuleSynergies st1)
        = crossModuleSuggestions (SoundCollab.analyzeCrossModuleSynergies st2)).
Proof.
  split.
  - intros st mA iA rA dA mB iB rB dB.
    unfold SoundCollab.addModuleInsight; simpl.
    apply sound_analysis_perm; rewrite !get_after_add;
      destruct (Js.eqb mA _), (Js.eqb mB _); try reflexivity;
      rewrite <- !app_assoc; apply Permutation_app_head; apply perm_swap.
  - intros st1 st2 H. simpl. apply sound_analysis_perm; apply H.
Qed.

Lemma sound_suggestions_order_independent_witness :
  (forall k, Permutation (getModuleInsights k SoundSamples.three_insights)
               (getModuleInsights k SoundSamples.three_insights_swapped))
  /\ crossModuleSuggestions
       (SoundCollab.analyzeCrossModuleSynergies SoundSamples.three_insights)
     = crossModuleSuggestions
         (SoundCollab.analyzeCrossModuleSynergies
            SoundSamples.three_insights_swapped)
  /\ map (fun s => (type s, priority s))
       (crossModuleSuggestions
          (SoundCollab.analyzeCrossModuleSynergies
             SoundSamples.three_insights_swapped))
     = [(sync, high); (enhance, high)]
  /\ getModuleInsights (lit "sound") SoundSamples.three_insights
     <> getModuleInsights (lit "sound") SoundSamples.three_insights_swapped.
Proof.
  assert (H : forall k,
             Permutation (getModuleInsights k SoundSamples.three_insights)
               (getModuleInsights k SoundSamples.three_insights_swapped)).
  { intros k.
    unfold getModuleInsights, SoundSamples.three_insights,
      SoundSamples.three_insights_swapped, SoundCollab.addModuleInsight,
      SoundCollab.analyzeCrossModuleSynergies. cbn [insights].
    rewrite !get_after_add.
    destruct (Js.eqb (lit "sound") k), (Js.eqb (lit "visual") k);
      try reflexivity;
      rewrite <- !app_assoc; apply Permutation_app_head, perm_swap. }
  split; [exact H|]. split.
  - exact (proj2 (@sound_suggestions_order_independent unit) _ _ H).
  - split; [reflexivity|]. intros E. vm_compute in E. discriminate E.
Defined.

(** * Properties of speaking and of the voice list *)

Import Speech SpeechSamples.

Section VoiceFacts.

Lemma find_first {A} (p : A -> bool) : forall (l : list A) (x : A),
  find p l = Some x ->
  exists l1 l2,
    l = l1 ++ x :: l2 /\ p x = true
    /\ forallb (fun y => negb (p y)) l1 = true.
Proof.
  induction l as [|y l IH]; intros x H; simpl in H; [discriminate|].
  destruct (p y) eqn:E.
  - injection H as <-. now exists [], l.
  - destruct (IH _ H) as (l1 & l2 & -> & Hx & Hl1).
    exists (y :: l1), l2. simpl. now rewrite E.
Qed.

Lemma find_none_iff {A} (p : A -> bool) (l : list A) :
  find p l = None <-> forallb (fun y => negb (p y)) l = true.
Proof.
  induction l as [|y l IH]; simpl; [tauto|].
  destruct (p y); simpl; [split; discriminate|exact IH].
Qed.

Lemma no_speech_service (h : Host) (events : list (list Voice)) :
  host_speech h = None ->
  after_events events (new_TextToSpeechService h)
  = {| synth := None; voices := []; listening := false |}.
Proof.
  intros H.
  assert (E : new_TextToSpeechService h
              = {| synth := None; voices := []; listening := false |}).
  { unfold new_TextToSpeechService, host_speech in *.
    destruct (window h) as [w|]; [|reflexivity].
    now rewrite H. }
  rewrite E. unfold after_events.
  induction events as [|now events IH]; [reflexivity|exact IH].
Qed.

Lemma events_keep_synth (events : list (list Voice)) :
  forall t, synth (after_events events t) = synth t.
Proof.
  unfold after_events.
  induction events as [|now events IH]; intros t; [reflexivity|].
  simpl. rewrite IH. unfold on_voiceschanged. now destruct (listening t).
Qed.

Lemma last_cons_default {A} : forall (l : list A) (x d : A),
  last (x :: l) d = last l x.
Proof.
  induction l as [|y l IH]; intros x d; [reflexivity|].
  change (last (x :: y :: l) d) with (last (y :: l) d).
  rewrite IH. symmetry. apply IH.
Qed.

Lemma events_on_listener (events : list (list Voice)) :
  forall t, listening t = true ->
            voices (after_events events t) = last events (voices t).
Proof.
  unfold after_events.
  induction events as [|now events IH]; intros t Hl; [reflexivity|].
  simpl fold_left. unfold on_voiceschanged at 2. rewrite Hl.
  rewrite IH by reflexivity. simpl voices.
  symmetry. apply last_cons_default.
Qed.

Lemma events_without_listener (events : list (list Voice)) :
  forall t, listening t = false -> after_events events t = t.
Proof.
  unfold after_events.
  induction events as [|now events IH]; intros t Hl; [reflexivity|].
  simpl fold_left. unfold on_voiceschanged at 2. rewrite Hl. now apply IH.
Qed.

End VoiceFacts.

Section SpeakClaims.

Variable number : Type.
Variable falsy : number -> bool.
Variable one : number.
Variable one_point_one : number.

(** X13: on a host without speech synthesis the service degrades to a
    warning: whatever [voiceschanged] events arrive, [speak] and the audio
    preview only write the one warning to the console, [stop] does
    nothing, and the statistics count no voice. *)
Theorem speech_degrades_without_capability (h : Host)
    (events : list (list Voice)) (text description now : jsstring)
    (options : SpeakOptions number) :
  host_speech h = None ->
  speak falsy one (after_events events (new_TextToSpeechService h))
    text options
  = [ConsoleWarn number
       (lit "Text-to-Speech not supported in this environment")]
  /\ previewAudioSuggestion falsy one one_point_one
       (after_events events (new_TextToSpeechService h)) description
     = [ConsoleWarn number
          (lit "Text-to-Speech not supported in this environment")]
  /\ stopAudioPreview number
       (after_events events (new_TextToSpeechService h)) = []
  /\ availableVoices
       (getEnhancedServiceStats
          (Some (after_events events (new_TextToSpeechService h))) now) = 0.
Proof.
  intros H. rewrite (no_speech_service h events H). repeat split.
Qed.

(** X14: on a service with a synthesizer [speak] cancels what is being
    spoken and then speaks exactly one utterance, with the text it was
    given; the rate and the pitch of the utterance are never a falsy
    number (1.0 stands in for 0 and for a missing option); the voice, if
    one is set, is one of the loaded voices. The audio preview speaks
    the description behind its fixed prefix. *)
Theorem speak_cancels_then_speaks (t : TextToSpeechService)
    (text description : jsstring) (options : SpeakOptions number) :
  found (synth t) = true -> falsy one = false ->
  (exists u,
      speak falsy one t text options = [SynthCancel number; SynthSpeak u]
      /\ u_text u = text
      /\ falsy (u_rate u) = false /\ falsy (u_pitch u) = false
      /\ forall v, u_voice u = Some v -> In v (voices t))
  /\ exists u,
       previewAudioSuggestion falsy one one_point_one t description
       = [SynthCancel number; SynthSpeak u]
       /\ u_text u = lit "Audio suggestion: " ++ description.
Proof.
  intros Hs Hone.
  assert (Hor : forall x, falsy (or_one falsy one x) = false).
  { intros [n|]; simpl; [|exact Hone].
    destruct (falsy n) eqn:E; [exact Hone|exact E]. }
  unfold previewAudioSuggestion, speak.
  destruct (synth t) as [sy|]; [|discriminate]. split.
  - eexists. split; [reflexivity|]. simpl. repeat split; auto.
    intros v Hv.
    destruct (requested options); apply find_some in Hv; tauto.
  - eexists. split; reflexivity.
Qed.

(** X15: how [speak] picks the voice. With a voice name that is given and
    not empty, the utterance gets the first loaded voice whose name
    contains it, and no voice at all when none does: there is no fall
    back to the preferred voices. Without a name, or with the empty
    name, it gets the first loaded voice whose name contains Natural or
    Premium or whose language starts with en-, if there is one. *)
Theorem speak_voice_choice (t : TextToSpeechService) (text : jsstring)
    (options : SpeakOptions number) :
  found (synth t) = true ->
  exists u,
    speak falsy one t text options = [SynthCancel number; SynthSpeak u]
    /\ (let wanted :=
          match requested options with
          | Some name => named name
          | None => preferred
          end in
        (forall v, u_voice u = Some v ->
                   exists before after,
                     voices t = before ++ v :: after /\ wanted v = true
                     /\ forallb (fun y => negb (wanted y)) before = true)
        /\ (u_voice u = None
            <-> forallb (fun y => negb (wanted y)) (voices t) = true)).
Proof.
  intros Hs. unfold speak.
  destruct (synth t) as [sy|]; [|discriminate].
  eexists. split; [reflexivity|]. simpl.
  destruct (requested options) as [name|]; split;
    try apply find_first; apply find_none_iff.
Qed.

End SpeakClaims.

Lemma speech_degrades_without_capability_witness :
  host_speech headless = None
  /\ speak num_falsy num_one
       (after_events [[voice_anna]] (new_TextToSpeechService headless))
       (lit "hello")
       {| opt_voice := None; opt_rate := None; opt_pitch := None |}
     = [ConsoleWarn num
          (lit "Text-to-Speech not supported in this environment")].
Proof.
  split; [reflexivity|].
  exact (proj1 (@speech_degrades_without_capability num num_falsy num_one
                  num_one_point_one headless [[voice_anna]] (lit "hello")
                  [] []
                  {| opt_voice := None; opt_rate := None; opt_pitch := None |}
                  eq_refl)).
Defined.

Lemma speak_cancels_then_speaks_witness :
  found (synth (new_TextToSpeechService browser)) = true
  /\ num_falsy num_one = false
  /\ exists u,
       speak num_falsy num_one (new_TextToSpeechService browser)
         (lit "hello")
         {| opt_voice := None;
            opt_rate := Some (QArith_base.Qmake 0 1);
            opt_pitch := None |}
       = [SynthCancel num; SynthSpeak u]
       /\ u_text u = lit "hello"
       /\ num_falsy (u_rate u) = false /\ num_falsy (u_pitch u) = false
       /\ forall v, u_voice u = Some v ->
                    In v (voices (new_TextToSpeechService browser)).
Proof.
  split; [reflexivity|]. split; [reflexivity|].
  exact (proj1 (@speak_cancels_then_speaks num num_falsy num_one
                  num_one_point_one (new_TextToSpeechService browser)
                  (lit "hello") []
                  {| opt_voice := None;
                     opt_rate := Some (QArith_base.Qmake 0 1);
                     opt_pitch := None |}
                  eq_refl eq_refl)).
Defined.

Lemma speak_voice_choice_witness :
  found (synth (new_TextToSpeechService browser)) = true
  /\ exists u,
       speak num_falsy num_one (new_TextToSpeechService browser)
         (lit "hello")
         {| opt_voice := Some (lit "Zira"); opt_rate := None;
            opt_pitch := None |}
       = [SynthCancel num; SynthSpeak u]
       /\ u_voice u = None.
Proof.
  split; [reflexivity|].
  destruct (@speak_voice_choice num num_falsy num_one
              (new_TextToSpeechService browser) (lit "hello")
              {| opt_voice := Some (lit "Zira"); opt_rate := None;
                 opt_pitch := None |} eq_refl) as (u & E & _ & Hnone).
  exists u. split; [exact E|]. apply Hnone. reflexivity.
Defined.

(** X16: the voice list is loaded once, when the service is made, and
    the listener for later changes is registered only if that first list
    was empty. So on a host whose synthesizer listed voices at once the
    list never changes, whatever events arrive; on a host whose first
    list was empty the list is the one of the last event. The statistics
    count the voices of that list. *)
Theorem voice_list_refresh (h : Host) (sy : SpeechSynthesis)
    (events : list (list Voice)) (now : jsstring) :
  host_speech h = Some sy ->
  voices (after_events events (new_TextToSpeechService h))
  = (if List.length (getVoices sy) =? 0
     then last events [] else getVoices sy)
  /\ availableVoices
       (getEnhancedServiceStats
          (Some (after_events events (new_TextToSpeechService h))) now)
     = List.length (voices (after_events events (new_TextToSpeechService h))).
Proof.
  intros H. split; [|reflexivity].
  assert (E : new_TextToSpeechService h
              = {| synth := Some sy; voices := getVoices sy;
                   listening := (List.length (getVoices sy) =? 0) |}).
  { unfold new_TextToSpeechService, host_speech in *.
    destruct (window h) as [w|]; [|discriminate]. rewrite H.
    unfold loadVoices. simpl. now rewrite orb_false_r. }
  rewrite E. destruct (List.length (getVoices sy) =? 0) eqn:L.
  - rewrite events_on_listener by reflexivity. simpl.
    apply Nat.eqb_eq in L. apply length_zero_iff_nil in L. now rewrite L.
  - now rewrite events_without_listener.
Qed.

Lemma voice_list_refresh_witness :
  host_speech browser = Some two_voices
  /\ voices (after_events [[voice_anna]] (new_TextToSpeechService browser))
     = [voice_anna; voice_premium]
  /\ host_speech slow_browser = Some {| getVoices := [] |}
  /\ voices (after_events [[voice_anna]]
               (new_TextToSpeechService slow_browser))
     = [voice_anna].
Proof.
  split; [reflexivity|]. split.
  - exact (proj1 (voice_list_refresh browser [[voice_anna]] [] eq_refl)).
  - split; [reflexivity|].
    exact (proj1 (voice_list_refresh slow_browser [[voice_anna]] [] eq_refl)).
Defined.

(** * Further properties of the sanitizer *)

Section LiteralFacts.

Lemma rep_greedy_done (k : cont) (p : ascii -> bool) (lo acc : nat)
    (prev : option ascii) (s : jsstring) :
  rep_greedy k p lo (Some 0) acc prev s
  = if lo =? 0 then k acc prev s else None.
Proof. now destruct s. Qed.

(** A mandatory single character: the pattern goes on behind it or fails
    here. *)
Lemma match_one (p : ascii -> bool) (re : regex) (acc : nat)
    (prev : option ascii) (c : ascii) (s : jsstring) :
  match_atoms (one p :: re) acc prev (c :: s)
  = if p c then match_atoms re (S acc) (Some c) s else None.
Proof.
  unfold one. cbn [match_atoms rep_greedy]. cbn [Nat.eqb pred option_map].
  destruct (p c); [|reflexivity].
  rewrite rep_greedy_done. simpl.
  now destruct (match_atoms re (S acc) (Some c) s).
Qed.

Lemma match_one_nil (p : ascii -> bool) (re : regex) (acc : nat)
    (prev : option ascii) :
  match_atoms (one p :: re) acc prev [] = None.
Proof. reflexivity. Qed.

(** A pattern that opens with a literal text matches only where that text
    stands. *)
Lemma match_literal : forall (w : jsstring) (re : regex) acc prev s r,
  match_atoms (map chr w ++ re) acc prev s = Some r ->
  startsWith s w = true.
Proof.
  induction w as [|a w IH]; intros re acc prev s r H; [reflexivity|].
  destruct s as [|c s]; [discriminate H|].
  change (map chr (a :: w) ++ re) with (one (is_char a) :: map chr w ++ re)
    in H.
  rewrite match_one in H. unfold is_char in H at 1. simpl.
  destruct (Ascii.eqb c a); [|discriminate]. simpl.
  exact (IH _ _ _ _ _ H).
Qed.

(** And it matches there, if the rest of the pattern matches behind it. *)
Lemma match_literal_complete : forall (w : jsstring) (re : regex) acc prev s,
  match_atoms (map chr w ++ re) acc prev (w ++ s)
  = match_atoms re (acc + List.length w)
      (fst (advance (List.length w) prev (w ++ s))) s.
Proof.
  induction w as [|a w IH]; intros re acc prev s.
  - simpl. now rewrite Nat.add_0_r.
  - change (map chr (a :: w) ++ re) with (one (is_char a) :: map chr w ++ re).
    simpl app. rewrite match_one. unfold is_char at 1.
    rewrite Ascii.eqb_refl, IH. simpl List.length.
    rewrite Nat.add_succ_r. reflexivity.
Qed.

End LiteralFacts.

Section EnvPass.

Variable c : ascii.
Hypothesis c_env : env_char c = true.

Lemma env_reference_matches (prev : option ascii) (s : jsstring) :
  startsWith s (env_reference c) = true ->
  exec re_env_var prev s <> None.
Proof.
  intros H. apply startsWith_split in H as [post ->].
  unfold exec, env_reference.
  change re_env_var
    with (map chr (lit "process.env.") ++ [plus env_char]).
  rewrite <- app_assoc. rewrite match_literal_complete.
  unfold plus. cbn [match_atoms].
  apply rep_greedy_complete with (n := 1); simpl; auto; try lia.
  - now rewrite c_env.
  - discriminate.
Qed.

(** What is copied up to the first replacement is what the input starts
    with. *)
Lemma copied_prefix (m : option ascii -> jsstring -> option nat) :
  forall (t s : jsstring) prev,
    forallb (fun x => negb (Ascii.eqb "[" x)) t = true ->
    startsWith (replace_from m ENV_VAR 0 prev s) t = true ->
    startsWith s t = true.
Proof.
  induction t as [|a t IH]; intros s prev Ht H; [reflexivity|].
  simpl in Ht. apply andb_true_iff in Ht as [Ha Ht].
  apply negb_true_iff in Ha.
  destruct s as [|x s]; cbn [replace_from] in H.
  - destruct (m prev []) as [[|n]|]; simpl in H;
      rewrite ?Ha in H; discriminate H.
  - destruct (m prev (x :: s)) as [[|n]|]; simpl in H;
      rewrite ?Ha in H; try discriminate H.
    simpl. apply andb_true_iff in H as [Hx H]. rewrite Hx. simpl.
    exact (IH _ _ Ht H).
Qed.

Lemma includes_behind_marker (tail : jsstring) :
  includes (ENV_VAR ++ tail) (env_reference c)
  = includes tail (env_reference c).
Proof. reflexivity. Qed.

(** The pass for environment variables leaves no reference behind. *)
Lemma env_pass_clean : forall s skip prev,
  includes (replace_from (exec re_env_var) ENV_VAR skip prev s)
    (env_reference c) = false.
Proof.
  induction s as [|x s IH]; intros skip prev.
  - destruct skip as [|j]; [|reflexivity]. cbn [replace_from].
    destruct (exec re_env_var prev []) as [[|n]|]; reflexivity.
  - destruct skip as [|j]; cbn [replace_from]; [|apply IH].
    destruct (exec re_env_var prev (x :: s)) as [[|n]|] eqn:E.
    + apply env_var_match in E. lia.
    + rewrite includes_behind_marker. apply IH.
    + rewrite includes_unfold, IH, orb_false_r.
      destruct (startsWith (x :: replace_from (exec re_env_var) ENV_VAR 0
                                     (Some x) s) (env_reference c)) eqn:S;
        [|reflexivity].
      exfalso. apply (env_reference_matches prev (x :: s)); [|exact E].
      apply (copied_prefix (exec re_env_var) (env_reference c) (x :: s) prev).
      * unfold env_reference. rewrite forallb_app.
        apply andb_true_iff. split; [reflexivity|].
        cbn [forallb]. rewrite andb_true_r. apply negb_true_iff.
        destruct (Ascii.eqb_spec "[" c) as [Ec|]; [|reflexivity].
        subst c. discriminate c_env.
      * cbn [replace_from]. rewrite E. exact S.
Qed.

End EnvPass.

Lemma includes_of_first_line (s t : jsstring) :
  includes (first_line s) t = true -> includes s t = true.
Proof.
  intros H. destruct (includes_first_line _ _ H) as (pre & post & -> & _).
  apply includes_app.
Qed.

(** X17: whatever is thrown, the sanitized text holds no reference to an
    environment variable: the text [process.env.] followed by a capital
    letter or an underscore does not occur in it. *)
Theorem sanitize_removes_env_references (error : thrown) (c : ascii) :
  env_char c = true ->
  includes (sanitizeErrorMessage error) (env_reference c) = false.
Proof.
  intros Hc.
  destruct (includes (sanitizeErrorMessage error) (env_reference c)) eqn:E;
    [|reflexivity].
  apply includes_of_first_line in E.
  unfold redact, replace_all at 1 in E.
  now rewrite env_pass_clean in E.
Qed.

Lemma sanitize_removes_env_references_witness :
  env_char "S" = true
  /\ includes
       (sanitizeErrorMessage
          (OtherValue (lit "missing process.env.SECRET_KEY in config")))
       (env_reference "S") = false.
Proof.
  split; [reflexivity|].
  exact (sanitize_removes_env_references
           (OtherValue (lit "missing process.env.SECRET_KEY in config"))
           "S" eq_refl).
Defined.

Import Plain.

Section PlainFacts.

Lemma advance_snd : forall n prev s, snd (advance n prev s) = skipn n s.
Proof.
  induction n as [|n IH]; intros prev s; [now rewrite advance_0|].
  destruct s as [|c s]; [reflexivity|]. simpl. apply IH.
Qed.

(** A match of a pattern that ends in a quantified class holds a run of
    characters of that class, as long as the minimum of the quantifier. *)
Lemma match_last_atom (p : ascii -> bool) (lo : nat) (hi : option nat) :
  forall re acc prev s r,
    match_atoms (re ++ [Rep p lo hi]) acc prev s = Some r ->
    exists pre run post,
      s = pre ++ run ++ post /\ lo <= List.length run
      /\ forallb p run = true.
Proof.
  induction re as [|a re IH]; intros acc prev s r H.
  - simpl in H. apply rep_greedy_sound in H as (n & Hlo & Hlen & Hall & _).
    exists [], (firstn n s), (skipn n s). simpl.
    rewrite firstn_skipn, length_firstn. repeat split; auto. lia.
  - destruct a as [q lo' hi'|]; simpl in H.
    + apply rep_greedy_sound in H as (n & _ & Hlen & _ & Hk & _).
      apply IH in Hk as (pre & run & post & E & Hrun).
      rewrite advance_snd in E.
      exists (firstn n s ++ pre), run, post. split; [|exact Hrun].
      rewrite <- app_assoc, <- E. symmetry. apply firstn_skipn.
    + destruct (is_boundary prev s); [|discriminate].
      exact (IH _ _ _ _ H).
Qed.

Lemma no_token_run_mono (limit : nat) : forall s k k',
  k' <= k -> no_token_run limit k s = true -> no_token_run limit k' s = true.
Proof.
  induction s as [|c s IH]; intros k k' Hk; simpl; [reflexivity|].
  destruct (token_char c); [|trivial].
  intros H. apply andb_true_iff in H as [H1 H2].
  apply Nat.ltb_lt in H1. apply andb_true_iff. split.
  - apply Nat.ltb_lt. lia.
  - apply (IH (S k)); [lia|exact H2].
Qed.

Lemma no_token_run_tail (limit k : nat) (c : ascii) (s : jsstring) :
  no_token_run limit k (c :: s) = true -> no_token_run limit 0 s = true.
Proof.
  simpl. destruct (token_char c); [|trivial].
  intros H. apply andb_true_iff in H as [_ H].
  eapply no_token_run_mono; [|exact H]. lia.
Qed.

Lemma no_token_run_bound (limit : nat) : forall run k post,
  run <> [] -> forallb token_char run = true ->
  no_token_run limit k (run ++ post) = true ->
  k + List.length run < limit.
Proof.
  induction run as [|c run IH]; intros k post Hne Hall H; [congruence|].
  simpl in Hall, H. apply andb_true_iff in Hall as [Hc Hall].
  rewrite Hc in H. apply andb_true_iff in H as [H1 H2].
  apply Nat.ltb_lt in H1. destruct run as [|c2 run'].
  - simpl. lia.
  - assert (S k + List.length (c2 :: run') < limit).
    { eapply IH; eauto. discriminate. }
    simpl in *. lia.
Qed.

Lemma no_token_run_excludes (limit : nat) : forall pre k run post,
  forallb token_char run = true ->
  no_token_run limit k (pre ++ run ++ post) = true ->
  List.length run < limit \/ run = [].
Proof.
  induction pre as [|c pre IH]; intros k run post Hall H.
  - destruct run as [|c run]; [now right|]. left.
    assert (k + List.length (c :: run) < limit).
    { eapply no_token_run_bound; eauto. discriminate. }
    lia.
  - apply (IH 0 run post Hall). eapply no_token_run_tail. exact H.
Qed.

Lemma match_literal_i : forall (w : jsstring) (re : regex) acc prev s r,
  match_atoms (map chr_i w ++ re) acc prev s = Some r ->
  startsWith (lower s) (lower w) = true.
Proof.
  induction w as [|a w IH]; intros re acc prev s r H; [reflexivity|].
  destruct s as [|c s]; [discriminate H|].
  change (map chr_i (a :: w) ++ re)
    with (one (is_char_i a) :: map chr_i w ++ re) in H.
  rewrite match_one in H. unfold is_char_i in H at 1. simpl.
  destruct (Ascii.eqb (to_lower c) (to_lower a)); [|discriminate]. simpl.
  exact (IH _ _ _ _ _ H).
Qed.

Lemma startsWith_includes (s t : jsstring) :
  startsWith s t = true -> includes s t = true.
Proof. intros H. now rewrite includes_unfold, H. Qed.

Lemma includes_tail (c : ascii) (s t : jsstring) :
  includes (c :: s) t = false -> includes s t = false.
Proof.
  rewrite includes_unfold. intros H.
  now apply orb_false_iff in H as [_ H].
Qed.

Lemma plain_from_tail (c : ascii) (s : jsstring) :
  plain_from (c :: s) -> plain_from s.
Proof.
  intros ([k Hk] & He & Ha). repeat split.
  - exists 0. now apply no_token_run_tail in Hk.
  - now apply includes_tail in He.
  - unfold lower in *. change (map to_lower (c :: s))
      with (to_lower c :: map to_lower s) in Ha.
    now apply includes_tail in Ha.
Qed.

Lemma plain_no_run (s pre run post : jsstring) :
  plain_from s -> s = pre ++ run ++ post ->
  forallb token_char run = true -> 32 <= List.length run -> False.
Proof.
  intros ([k Hk] & _) -> Hall Hlen.
  destruct (@no_token_run_excludes 32 pre k run post Hall Hk) as [H| ->];
    [lia|simpl in Hlen; lia].
Qed.

(** None of the five patterns matches at the start of a plain text. *)
Lemma plain_no_match (s : jsstring) (prev : option ascii) :
  plain_from s ->
  exec re_google_key prev s = None /\ exec re_api_key prev s = None
  /\ exec re_bearer prev s = None /\ exec re_long_token prev s = None
  /\ exec re_env_var prev s = None.
Proof.
  intros Hp. repeat split.
  - destruct (exec re_google_key prev s) as [r|] eqn:E; [|reflexivity].
    exfalso. unfold exec, re_google_key, times in E.
    apply match_last_atom in E as (pre & run & post & Hs & Hlen & Hall).
    apply (@plain_no_run s pre run post Hp Hs Hall). lia.
  - destruct (exec re_api_key prev s) as [r|] eqn:E; [|reflexivity].
    exfalso. unfold exec in E.
    change re_api_key
      with ((str_i "api" ++ [opt (one_of "_-")] ++ str_i "key"
             ++ [opt quote; star is_space; one (one_of ":="); star is_space;
                 opt quote]) ++ [Rep token_char 32 None]) in E.
    apply match_last_atom in E as (pre & run & post & Hs & Hlen & Hall).
    apply (@plain_no_run s pre run post Hp Hs Hall). lia.
  - destruct (exec re_bearer prev s) as [r|] eqn:E; [|reflexivity].
    exfalso. unfold exec in E.
    change re_bearer
      with (map chr_i (lit "authorization")
            ++ [opt quote; star is_space; one (one_of ":="); star is_space;
                opt quote] ++ str_i "Bearer" ++ [plus is_space;
                                                 plus bearer_char]) in E.
    apply match_literal_i in E. apply startsWith_includes in E.
    destruct Hp as (_ & _ & Ha).
    change (lower (lit "authorization")) with (lit "authorization") in E.
    congruence.
  - destruct (exec re_long_token prev s) as [r|] eqn:E; [|reflexivity].
    exfalso. destruct (long_token_match _ _ E) as (Hr & Hlen & _).
    destruct (exec_sound _ _ _ E) as [_ Hall].
    apply (@plain_no_run s [] (firstn r s) (skipn r s) Hp).
    + simpl. symmetry. apply firstn_skipn.
    + eapply forallb_forall. intros c Hc.
      eapply forallb_forall in Hall; [|exact Hc].
      unfold accepts, re_long_token, at_least in Hall. simpl in Hall.
      now rewrite orb_false_r in Hall.
    + rewrite length_firstn. lia.
  - destruct (exec re_env_var prev s) as [r|] eqn:E; [|reflexivity].
    exfalso. unfold exec in E.
    change re_env_var
      with (map chr (lit "process.env.") ++ [plus env_char]) in E.
    apply match_literal in E. apply startsWith_includes in E.
    destruct Hp as (_ & He & _). congruence.
Qed.

(** A pass whose pattern matches nowhere in the text returns the text. *)
Lemma pass_without_match (m : option ascii -> jsstring -> option nat)
    (rep : jsstring) :
  (forall s prev, plain_from s -> m prev s = None) ->
  forall s prev, plain_from s -> replace_from m rep 0 prev s = s.
Proof.
  intros Hm. induction s as [|c s IH]; intros prev Hp; cbn [replace_from];
    rewrite (Hm _ prev Hp); [reflexivity|].
  f_equal. apply IH. eapply plain_from_tail. exact Hp.
Qed.

Lemma redact_plain (text : jsstring) :
  plain text = true -> redact text = text.
Proof.
  intros H. unfold plain in H.
  apply andb_true_iff in H as [H Ha]. apply andb_true_iff in H as [Hr He].
  apply negb_true_iff in Ha, He.
  assert (Hp : plain_from text) by (repeat split; eauto).
  assert (Hpass : forall m rep,
             (forall s prev, plain_from s -> m prev s = None) ->
             replace_from m rep 0 None text = text).
  { intros m rep Hm. apply pass_without_match; assumption. }
  assert (Hno : forall re,
             In re [re_google_key; re_api_key; re_bearer; re_long_token;
                   re_env_var] ->
             forall s prev, plain_from s -> exec re prev s = None).
  { intros re Hre s prev Hs.
    destruct (@plain_no_match s prev Hs) as (H1 & H2 & H3 & H4 & H5).
    simpl in Hre. intuition (subst; assumption). }
  unfold redact, replace_all.
  rewrite (Hpass (exec re_google_key)) by (apply Hno; simpl; tauto).
  rewrite (Hpass (exec re_api_key)) by (apply Hno; simpl; tauto).
  rewrite (Hpass (exec re_bearer)) by (apply Hno; simpl; tauto).
  rewrite (Hpass (exec re_long_token)) by (apply Hno; simpl; tauto).
  apply Hpass. apply Hno. simpl; tauto.
Qed.

End PlainFacts.

(** X18: a plain error text comes through unchanged. If the error text
    (message, line feed, stack) has no run of 32 token characters, does
    not contain [process.env.] and does not contain the word
    authorization in any letter case, no pattern matches in it, and the
    sanitized text is the first line of the message as it is. *)
Theorem sanitize_keeps_plain_text (error : thrown) :
  plain (fullErrorText error) = true ->
  redact (fullErrorText error) = fullErrorText error
  /\ sanitizeErrorMessage error = first_line (errorStr error).
Proof.
  intros H. unfold sanitizeErrorMessage. rewrite (redact_plain _ H).
  split; [reflexivity|]. unfold fullErrorText. apply first_line_message.
Qed.

Lemma sanitize_keeps_plain_text_witness :
  plain
    (fullErrorText
       (ErrorObject (lit "Network request failed: timeout after 30s")
          (Some (lit "Error: Network request failed" ++ [newline]
                 ++ lit "    at fetchMoods (app.js:12)")))) = true
  /\ sanitizeErrorMessage
       (ErrorObject (lit "Network request failed: timeout after 30s")
          (Some (lit "Error: Network request failed" ++ [newline]
                 ++ lit "    at fetchMoods (app.js:12)")))
     = lit "Network request failed: timeout after 30s".
Proof.
  split; [reflexivity|].
  rewrite (proj2 (sanitize_keeps_plain_text
                    (ErrorObject
                       (lit "Network request failed: timeout after 30s")
                       (Some (lit "Error: Network request failed"
                              ++ [newline]
                              ++ lit "    at fetchMoods (app.js:12)")))
                    eq_refl)).
  reflexivity.
Defined.

Lemma sanitize_safe_to_log (error : thrown) :
  safe_to_log (sanitizeErrorMessage error).
Proof.
  split; [apply first_line_no_newline|]. split.
  - intros core Hlen Hall Hb.
    apply (@no_token_span_excludes 40 (sanitizeErrorMessage error) 0 core);
      auto.
    + intros ->. simpl in Hlen. lia.
    + apply no_token_span_first_line, redact_no_token_span.
  - intros c Hc.
    destruct (includes (sanitizeErrorMessage error)
                (lit "process.env." ++ [c])) eqn:E; [|reflexivity].
    apply includes_of_first_line in E.
    unfold redact, replace_all at 1 in E.
    change (lit "process.env." ++ [c]) with (env_reference c) in E.
    now rewrite (env_pass_clean c Hc) in E.
Qed.

Section WrapperFlow.

Variables AudioSuggestion FoleySuggestion : Type.

Lemma includes_here (t b : jsstring) : includes (t ++ b) t = true.
Proof. apply (includes_app [] t b). Qed.

(** X19: the three enhanced wrappers never reject. When the provider
    fulfils, the wrapper writes nothing to the console and hands on the
    provider's moods or suggestions unchanged, in a text that quotes the
    visual mood, the camera movement and the lighting it was given; when
    the provider rejects, the wrapper writes exactly one console line and
    still fulfils. *)
Theorem enhanced_wrappers_always_fulfil :
  (forall provider scene visualMood,
      match provider scene visualMood with
      | Fulfilled m =>
          exists text,
            analyzeSoundMoodEnhanced provider scene visualMood
            = ([], Fulfilled {| moods := m; reasoning := text |})
            /\ includes text visualMood = true
            /\ includes text (substring0 50 scene) = true
      | Rejected _ =>
          exists line v,
            analyzeSoundMoodEnhanced provider scene visualMood
            = ([line], Fulfilled v)
      end)
  /\ (forall provider scene mood camera lighting,
        match provider scene mood camera lighting with
        | Fulfilled l =>
            exists text,
              generateSoundSuggestionsEnhanced provider scene mood camera
                lighting
              = ([], Fulfilled {| sound_suggestions := l;
                                  description := text |})
              /\ includes text camera = true
              /\ includes text lighting = true
        | Rejected _ =>
            exists line v,
              @generateSoundSuggestionsEnhanced AudioSuggestion provider
                scene mood camera lighting
              = ([line], Fulfilled v)
        end)
  /\ (forall provider characters scene camera,
        match provider characters scene camera with
        | Fulfilled l =>
            exists text,
              generateFoleySuggestionsEnhanced provider characters scene
                camera
              = ([], Fulfilled {| foley_suggestions := l;
                                  foley_insights := text |})
        | Rejected _ =>
            exists line v,
              @generateFoleySuggestionsEnhanced FoleySuggestion provider
                characters scene camera
              = ([line], Fulfilled v)
        end).
Proof.
  repeat split.
  - intros provider scene visualMood.
    unfold analyzeSoundMoodEnhanced.
    destruct (provider scene visualMood) as [m|e].
    + eexists. split; [reflexivity|]. split.
      * do 7 apply includes_app_left. apply includes_here.
      * do 2 apply includes_app_left. apply includes_here.
    + eexists. eexists. reflexivity.
  - intros provider scene mood camera lighting.
    unfold generateSoundSuggestionsEnhanced.
    destruct (provider scene mood camera lighting) as [l|e].
    + eexists. split; [reflexivity|]. split.
      * do 5 apply includes_app_left. apply includes_here.
      * do 7 apply includes_app_left. apply includes_here.
    + eexists. eexists. reflexivity.
  - intros provider characters scene camera.
    unfold generateFoleySuggestionsEnhanced.
    destruct (provider characters scene camera) as [l|e].
    + eexists. reflexivity.
    + eexists. eexists. reflexivity.
Qed.

(** X20: whatever the provider throws, every line the wrappers write to
    the console is safe to log: it has no line feed, no token stretch of
    40 characters or more, and no reference to an environment
    variable. *)
Theorem console_lines_are_sanitized :
  (forall provider scene visualMood label text,
      In (label, text)
         (fst (analyzeSoundMoodEnhanced provider scene visualMood)) ->
      safe_to_log text)
  /\ (forall provider scene mood camera lighting label text,
        In (label, text)
           (fst (@generateSoundSuggestionsEnhanced AudioSuggestion provider
                   scene mood camera lighting)) ->
        safe_to_log text)
  /\ (forall provider characters scene camera label text,
        In (label, text)
           (fst (@generateFoleySuggestionsEnhanced FoleySuggestion provider
                   characters scene camera)) ->
        safe_to_log text).
Proof.
  split; [|split].
  - intros provider scene visualMood label text.
    unfold analyzeSoundMoodEnhanced.
    destruct (provider scene visualMood) as [m|e]; simpl; [tauto|].
    intros [H|[]]. injection H as _ <-. apply sanitize_safe_to_log.
  - intros provider scene mood camera lighting label text.
    unfold generateSoundSuggestionsEnhanced.
    destruct (provider scene mood camera lighting) as [l|e]; simpl; [tauto|].
    intros [H|[]]. injection H as _ <-. apply sanitize_safe_to_log.
  - intros provider characters scene camera label text.
    unfold generateFoleySuggestionsEnhanced.
    destruct (provider characters scene camera) as [l|e]; simpl; [tauto|].
    intros [H|[]]. injection H as _ <-. apply sanitize_safe_to_log.
Qed.

End WrapperFlow.

Lemma console_lines_are_sanitized_witness :
  In (lit "Enhanced sound mood analysis failed:",
      lit "quota exceeded for key [REDACTED_TOKEN]")
     (fst (analyzeSoundMoodEnhanced (fun _ _ => Rejected quota_error)
             (lit "a quiet street") (lit "tense")))
  /\ safe_to_log (lit "quota exceeded for key [REDACTED_TOKEN]").
Proof.
  assert (H : In (lit "Enhanced sound mood analysis failed:",
                  lit "quota exceeded for key [REDACTED_TOKEN]")
                (fst (analyzeSoundMoodEnhanced
                        (fun _ _ => Rejected quota_error)
                        (lit "a quiet street") (lit "tense")))).
  { vm_compute. left. reflexivity. }
  split; [exact H|].
  exact (proj1 (console_lines_are_sanitized unit unit) _ _ _ _ _ H).
Defined.

Section PromptFacts.



End PromptFacts.

